(** * yellowbox-react: the warning-collection core

    A shallow embedding of [src/common.js] (the collector: console wrappers,
    [sprintf], [updateWarningMap], [isWarningIgnored]), of the component
    methods of [src/index.js] that write to the collector ([dismissWarning],
    [componentDidMount], [componentWillUnmount]) and, where it differs, of the
    single-file build [index.js] at the root of the repository.

    JavaScript values are kept as the code sees them: primitives are
    concrete, heap objects and numbers are opaque and come with the
    conversions the host gives them.  Abrupt completions ([throw]) are
    explicit, because nothing in the collector catches them. *)

From Stdlib Require Import List String Ascii ZArith Lia Bool Arith.
From Stdlib Require Import DecimalString.
Import ListNotations.
Local Open Scope string_scope.

Set Implicit Arguments.

(** ** Completions *)

Inductive error : Type :=
| TypeError
| Uncaught (what : string).

Inductive completion (A : Type) : Type :=
| Normal (a : A)
| Throw (e : error).
Arguments Normal {A} a.
Arguments Throw {A} e.

Definition bind {A B : Type} (c : completion A) (k : A -> completion B)
  : completion B :=
  match c with
  | Normal a => k a
  | Throw e => Throw e
  end.

Notation "x <- c ;; k" := (bind c (fun x => k))
  (at level 61, c at next level, right associativity).

Definition is_normal {A : Type} (c : completion A) : Prop :=
  exists a, c = Normal a.

Fixpoint mapM {A B : Type} (f : A -> completion B) (l : list A)
  : completion (list B) :=
  match l with
  | [] => Normal []
  | a :: l' => b <- f a ;; bs <- mapM f l' ;; Normal (b :: bs)
  end.

(** ** Values *)

Section Values.
Variables number object : Type.

Inductive value : Type :=
| VUndefined
| VNull
| VBoolean (b : bool)
| VNumber (n : number)
| VString (s : string)
| VSymbol (description : string)
| VObject (o : object).
End Values.

Arguments VUndefined {number object}.
Arguments VNull {number object}.
Arguments VBoolean {number object} b.
Arguments VNumber {number object} n.
Arguments VString {number object} s.
Arguments VSymbol {number object} description.
Arguments VObject {number object} o.


(** What the collector takes from its environment: the two opaque sorts of
    values with their string conversions, and [json-stringify-safe], which
    [updateWarningMap] requires and which is not part of the repository.
    [stringifySafe] is the one-argument call [stringifySafe(arg)]: it yields a
    string, [undefined] ([None]), or throws. *)
Class Host : Type := {
  number : Type;
  object : Type;
  NumberToString : number -> string;
  ObjectToString : object -> completion string;
  stringifySafe : value number object -> completion (option string)
}.

Definition jsvalue `{Host} : Type := value number object.

(** ** Strings and arrays *)

(** [str.match(/%s/g) || []]: the matches, leftmost first, not
    overlapping. *)
Fixpoint String_match_pct_s (str : string) : list string :=
  match str with
  | String "%" (String "s" rest) => "%s" :: String_match_pct_s rest
  | String _ rest => String_match_pct_s rest
  | EmptyString => []
  end.

(** What follows a placeholder at the head of [String c rest], if there is
    one. *)
Definition after_placeholder (c : ascii) (rest : string) : option string :=
  match c, rest with
  | "%"%char, String "s" rest' => Some rest'
  | _, _ => None
  end.

(** [str.startsWith(searchString)], both strings. *)
Fixpoint String_startsWith (str searchString : string)
    {struct searchString} : bool :=
  match searchString with
  | EmptyString => true
  | String c search' =>
      match str with
      | EmptyString => false
      | String d str' => Ascii.eqb d c && String_startsWith str' search'
      end
  end.

(** [arr.slice(start)] and [arr.slice(0, end)]. *)
Definition Array_slice_from {A : Type} (arr : list A) (start : nat)
  : list A := skipn start arr.
Definition Array_slice_to {A : Type} (arr : list A) (end_ : nat)
  : list A := firstn end_ arr.

(** [arr.join(sep)]: an [undefined] element counts as the empty string. *)
Definition join_element (x : option string) : string :=
  match x with
  | Some s => s
  | None => ""
  end.

Fixpoint Array_join (sep : string) (arr : list (option string)) : string :=
  match arr with
  | [] => ""
  | [x] => join_element x
  | x :: rest => join_element x ++ sep ++ Array_join sep rest
  end.

(** [arr.map(callbackfn)]: the callback receives the element, its index and
    the array; a throw ends the loop. *)
Fixpoint Array_map_from {A B : Type}
    (callbackfn : A -> nat -> list A -> completion B)
    (arr : list A) (k : nat) (todo : list A) : completion (list B) :=
  match todo with
  | [] => Normal []
  | a :: todo' =>
      b <- callbackfn a k arr ;;
      bs <- Array_map_from callbackfn arr (S k) todo' ;;
      Normal (b :: bs)
  end.

Definition Array_map {A B : Type}
    (callbackfn : A -> nat -> list A -> completion B) (arr : list A)
  : completion (list B) :=
  Array_map_from callbackfn arr 0 arr.

(** [arr.some(predicate)]. *)
Definition Array_some {A : Type} (predicate : A -> bool) (arr : list A)
  : bool := existsb predicate arr.

(** ** [Map]: keys in insertion order *)

(** The counts are JavaScript numbers; they are integers here, exact as long
    as a count stays below 2^53. *)
Definition WarningMap : Type := list (string * Z).

Fixpoint Map_has (key : string) (m : WarningMap) : bool :=
  match m with
  | [] => false
  | (k, _) :: m' => if String.eqb k key then true else Map_has key m'
  end.

Fixpoint Map_get (key : string) (m : WarningMap) : option Z :=
  match m with
  | [] => None
  | (k, v) :: m' => if String.eqb k key then Some v else Map_get key m'
  end.

(** [m.set(key, v)]: a present key keeps its place, a new one goes last. *)
Fixpoint Map_set (key : string) (v : Z) (m : WarningMap) : WarningMap :=
  match m with
  | [] => [(key, v)]
  | (k, v') :: m' =>
      if String.eqb k key then (k, v) :: m' else (k, v') :: Map_set key v m'
  end.

Fixpoint Map_delete (key : string) (m : WarningMap) : WarningMap :=
  match m with
  | [] => []
  | (k, v) :: m' =>
      if String.eqb k key then m' else (k, v) :: Map_delete key m'
  end.

Definition Map_clear (m : WarningMap) : WarningMap := [].

Definition Map_keys (m : WarningMap) : list string := map fst m.

(** The entries filed under one key. *)
Definition entries_of (key : string) (m : WarningMap) : WarningMap :=
  filter (fun entry => String.eqb (fst entry) key) m.

(** A map as the collector keeps it: no key twice, no count below 1. *)
Definition well_counted (m : WarningMap) : Prop :=
  NoDup (Map_keys m) /\ forall key c, In (key, c) m -> (1 <= c)%Z.

(** ** The process: shared objects, event emitter, immediates *)

Inductive Level : Type := LevelError | LevelWarn.

(** A handle returned by [setImmediate]; an object, hence truthy. *)
Definition Immediate : Type := nat.

(** A listener registered by [componentDidMount]: a closure over the
    component ([this]) and over its own variable [scheduled]. *)
Record Listener : Type := {
  lid : nat;
  owner : nat;
  scheduled : option Immediate
}.

(** A callback waiting in the immediate queue. *)
Record Task : Type := {
  handle : Immediate;
  closure : nat;
  this_ : nat
}.

(** A deferred [this.setState({warningMap})]: who was told, and what the
    shared map held at that moment. *)
Record Notification : Type := {
  to_listener : nat;
  to_component : nat;
  contents : WarningMap
}.

(** [console.ignoredYellowBox]: an array of strings, or anything else. *)
Inductive IgnoredYellowBox : Type :=
| NotAnArray
| ArrayOf (prefixes : list string).

(** [process.env.NODE_ENV] and [typeof window !== 'undefined']. *)
Record Environment : Type := {
  NODE_ENV : option string;
  window_defined : bool
}.

Definition production (env : Environment) : bool :=
  match NODE_ENV env with
  | Some s => String.eqb s "production"
  | None => false
  end.

(** What [addListener] of Node's [events] returns: the emitter itself, so that
    calls can be chained. *)
Inductive ListenerHandle : Type := TheEmitter.

Section Process.
Context `{H : Host}.

Record World : Type := {
  _warningMap : WarningMap;
  _warningEmitter : list Listener;
  nextListener : nat;
  immediates : list Task;
  nextImmediate : Immediate;
  console_output : list (Level * list jsvalue);
  notifications : list Notification;
  ignoredYellowBox : IgnoredYellowBox
}.

Definition initial_World : World :=
  {| _warningMap := [];
     _warningEmitter := [];
     nextListener := 0;
     immediates := [];
     nextImmediate := 0;
     console_output := [];
     notifications := [];
     ignoredYellowBox := NotAnArray |}.

Definition with_warningMap (m : WarningMap) (w : World) : World :=
  {| _warningMap := m;
     _warningEmitter := _warningEmitter w;
     nextListener := nextListener w;
     immediates := immediates w;
     nextImmediate := nextImmediate w;
     console_output := console_output w;
     notifications := notifications w;
     ignoredYellowBox := ignoredYellowBox w |}.

Definition with_console_output (o : list (Level * list jsvalue))
    (w : World) : World :=
  {| _warningMap := _warningMap w;
     _warningEmitter := _warningEmitter w;
     nextListener := nextListener w;
     immediates := immediates w;
     nextImmediate := nextImmediate w;
     console_output := o;
     notifications := notifications w;
     ignoredYellowBox := ignoredYellowBox w |}.

Definition with_ignoredYellowBox (i : IgnoredYellowBox) (w : World)
  : World :=
  {| _warningMap := _warningMap w;
     _warningEmitter := _warningEmitter w;
     nextListener := nextListener w;
     immediates := immediates w;
     nextImmediate := nextImmediate w;
     console_output := console_output w;
     notifications := notifications w;
     ignoredYellowBox := i |}.

(** The original [console.error] and [console.warn] of the host. *)
Definition original (level : Level) (arguments : list jsvalue) (w : World)
  : World :=
  with_console_output (console_output w ++ [(level, arguments)]) w.

(** [setImmediate(callback)]: the callback is queued and a fresh handle is
    returned. *)
Definition setImmediate (closure_ this : nat) (queue : list Task)
    (next : Immediate) : Immediate * list Task * Immediate :=
  (next,
   (queue ++ [{| handle := next; closure := closure_; this_ := this |}])%list,
   S next).

(** The listener of [componentDidMount]:
    [scheduled = scheduled || setImmediate(() => { ... })]. *)
Definition listener_call (l : Listener) (queue : list Task)
    (next : Immediate) : Listener * list Task * Immediate :=
  match scheduled l with
  | Some _ => (l, queue, next)
  | None =>
      let '(h, queue', next') := setImmediate (lid l) (owner l) queue next in
      ({| lid := lid l; owner := owner l; scheduled := Some h |},
       queue', next')
  end.

(** [emitter.emit('warning', map)]: the listeners run at once, in the order
    of their registration. *)
Fixpoint emit_to (ls : list Listener) (queue : list Task)
    (next : Immediate) : list Listener * list Task * Immediate :=
  match ls with
  | [] => ([], queue, next)
  | l :: ls' =>
      let '(l', queue1, next1) := listener_call l queue next in
      let '(ls'', queue2, next2) := emit_to ls' queue1 next1 in
      (l' :: ls'', queue2, next2)
  end.

Definition EventEmitter_emit (w : World) : World :=
  let '(ls, queue, next) :=
    emit_to (_warningEmitter w) (immediates w) (nextImmediate w) in
  {| _warningMap := _warningMap w;
     _warningEmitter := ls;
     nextListener := nextListener w;
     immediates := queue;
     nextImmediate := next;
     console_output := console_output w;
     notifications := notifications w;
     ignoredYellowBox := ignoredYellowBox w |}.

(** [emitter.addListener('warning', listener)]. *)
Definition EventEmitter_addListener (this : nat) (w : World)
  : ListenerHandle * World :=
  (TheEmitter,
   {| _warningMap := _warningMap w;
      _warningEmitter :=
        _warningEmitter w ++
        [{| lid := nextListener w; owner := this; scheduled := None |}];
      nextListener := S (nextListener w);
      immediates := immediates w;
      nextImmediate := nextImmediate w;
      console_output := console_output w;
      notifications := notifications w;
      ignoredYellowBox := ignoredYellowBox w |}).

(** [handle.remove]: an [EventEmitter] has [removeListener] and
    [removeAllListeners], and no property [remove]. *)
Definition handle_remove (h : ListenerHandle) : option (World -> World) :=
  match h with
  | TheEmitter => None
  end.

(** The callback given to [setImmediate]:
    [scheduled = null; this.setState({warningMap});] *)
Definition unschedule (closure_ : nat) (l : Listener) : Listener :=
  if Nat.eqb (lid l) closure_
  then {| lid := lid l; owner := owner l; scheduled := None |}
  else l.

Definition immediate_callback (w : World) (t : Task) : World :=
  {| _warningMap := _warningMap w;
     _warningEmitter := map (unschedule (closure t)) (_warningEmitter w);
     nextListener := nextListener w;
     immediates := immediates w;
     nextImmediate := nextImmediate w;
     console_output := console_output w;
     notifications :=
       notifications w ++
       [{| to_listener := closure t;
           to_component := this_ t;
           contents := _warningMap w |}];
     ignoredYellowBox := ignoredYellowBox w |}.

(** One turn of the event loop: the queued immediates run, in order. *)
Definition run_immediates (w : World) : World :=
  fold_left immediate_callback (immediates w)
    {| _warningMap := _warningMap w;
       _warningEmitter := _warningEmitter w;
       nextListener := nextListener w;
       immediates := [];
       nextImmediate := nextImmediate w;
       console_output := console_output w;
       notifications := notifications w;
       ignoredYellowBox := ignoredYellowBox w |}.

(** ** Conversions to string *)

(** The abstract operation ToString, applied by [String.prototype.replace]
    to what its callback returns. *)
Definition ToString (v : jsvalue) : completion string :=
  match v with
  | VUndefined => Normal "undefined"
  | VNull => Normal "null"
  | VBoolean true => Normal "true"
  | VBoolean false => Normal "false"
  | VNumber n => Normal (NumberToString n)
  | VString s => Normal s
  | VSymbol _ => Throw TypeError
  | VObject o => ObjectToString o
  end.

(** [String(v)]: as ToString, except that a symbol is described. *)
Definition String_ (v : jsvalue) : completion string :=
  match v with
  | VSymbol d => Normal ("Symbol(" ++ d ++ ")")
  | _ => ToString v
  end.

(** [str.replace(/%s/g, replaceValue)] with a function [replaceValue]: it is
    called once a match, from left to right, and what it returns goes
    through ToString.  The callback of [sprintf] updates a variable it has
    captured, so the callback takes and returns that variable. *)
Fixpoint String_replace_pct_s {S : Type} (str : string)
    (replaceValue : string -> S -> jsvalue * S) (captured : S)
  : completion string :=
  match str with
  | String "%" (String "s" rest) =>
      let '(v, captured') := replaceValue "%s" captured in
      r <- ToString v ;;
      t <- String_replace_pct_s rest replaceValue captured' ;;
      Normal (r ++ t)
  | String c rest =>
      t <- String_replace_pct_s rest replaceValue captured ;;
      Normal (String c t)
  | EmptyString => Normal ""
  end.

(** [args[i]]: [undefined] past the end. *)
Definition Array_get (args : list jsvalue) (i : nat) : jsvalue :=
  nth i args VUndefined.

End Process.

(** ** [src/common.js] *)

Module Common.
Section WithHost.
Context `{H : Host}.

(** [function sprintf(format, ...args)]:
    [var index = 0; return format.replace(/%s/g, match => args[index++]);] *)
Definition sprintf (format : string) (args : list jsvalue)
  : completion string :=
  String_replace_pct_s format
    (fun _match index => (Array_get args index, S index)) 0.

(** The constant [warning] of [updateWarningMap(format, ...args)]. *)
Definition warning (format : jsvalue) (args : list jsvalue)
  : completion string :=
  format' <- String_ format ;;
  let argCount := List.length (String_match_pct_s format') in
  formatted <- sprintf format' (Array_slice_to args argCount) ;;
  serialized <- Array_map (fun arg _ _ => stringifySafe arg)
                  (Array_slice_from args argCount) ;;
  Normal (Array_join " " (Some formatted :: serialized)).

(** [_warningMap.has(warning) ? _warningMap.get(warning) : 0]; [get] is
    only read where [has] holds, so it is a number there. *)
Definition count_of (warning_ : string) (m : WarningMap) : Z :=
  if Map_has warning_ m
  then match Map_get warning_ m with Some c => c | None => 0%Z end
  else 0%Z.

Definition updateWarningMap (format : jsvalue) (args : list jsvalue)
    (w : World) : World * completion unit :=
  match warning format args with
  | Throw e => (w, Throw e)
  | Normal warning_ =>
      let count := count_of warning_ (_warningMap w) in
      let w1 :=
        with_warningMap (Map_set warning_ (count + 1)%Z (_warningMap w)) w in
      (EventEmitter_emit w1, Normal tt)
  end.

(** [updateWarningMap.apply(null, arguments)]. *)
Definition updateWarningMap_apply (arguments : list jsvalue) (w : World)
  : World * completion unit :=
  updateWarningMap (Array_get arguments 0) (tl arguments) w.

(** [typeof arguments[0] === 'string' &&
     arguments[0].startsWith('Warning: ')]. *)
Definition is_warning_call (arguments : list jsvalue) : bool :=
  match Array_get arguments 0 with
  | VString s => String_startsWith s "Warning: "
  | _ => false
  end.

(** The functions assigned to [console.error] and [console.warn] when
    [process.env.NODE_ENV !== 'production']. *)
Definition error_wrapper (arguments : list jsvalue) (w : World)
  : World * completion unit :=
  let w1 := original LevelError arguments w in
  if is_warning_call arguments
  then updateWarningMap_apply arguments w1
  else (w1, Normal tt).

Definition warn_wrapper (env : Environment) (arguments : list jsvalue)
    (w : World) : World * completion unit :=
  let w1 :=
    if window_defined env then original LevelWarn arguments w else w in
  updateWarningMap_apply arguments w1.

(** [console.error] and [console.warn] once the module is loaded. *)
Definition console_error (env : Environment) (arguments : list jsvalue)
    (w : World) : World * completion unit :=
  if production env
  then (original LevelError arguments w, Normal tt)
  else error_wrapper arguments w.

Definition console_warn (env : Environment) (arguments : list jsvalue)
    (w : World) : World * completion unit :=
  if production env
  then (original LevelWarn arguments w, Normal tt)
  else warn_wrapper env arguments w.

(** [isWarningIgnored(warning)]; [console.ignoredYellowBox] is read from
    the world at the call. *)
Definition isWarningIgnored (warning_ : string) (w : World) : bool :=
  match ignoredYellowBox w with
  | ArrayOf prefixes =>
      Array_some
        (fun ignorePrefix => String_startsWith warning_ ignorePrefix)
        prefixes
  | NotAnArray => false
  end.

End WithHost.
End Common.

(** ** [src/index.js]: the methods of [YellowBox] that touch the collector.
    The terminal binding has the same three methods, word for word. *)

Record YellowBox : Type := {
  instance : nat;
  inspecting : option string;
  _listener : option ListenerHandle
}.

(** [new YellowBox(props, context)]. *)
Definition new_YellowBox (id : nat) : YellowBox :=
  {| instance := id; inspecting := None; _listener := None |}.

(** [a !== b] between values that are a string or [null]. *)
Definition strict_differs (a b : option string) : bool :=
  match a, b with
  | Some x, Some y => negb (String.eqb x y)
  | None, None => false
  | _, _ => true
  end.

(** Whether [if (warning)] takes the first branch: [null] and the empty
    string do not. *)
Definition truthy (warning_ : option string) : bool :=
  match warning_ with
  | Some s => negb (String.eqb s "")
  | None => false
  end.

Module Index.
Section WithHost.
Context `{H : Host}.

(** [this.dismissWarning = warning => { ... }].  [this.state.warningMap] is
    the shared [_warningMap] itself, so the map of the world changes. *)
Definition dismissWarning (warning_ : option string) (this : YellowBox)
    (w : World) : YellowBox * World :=
  let inspecting_ := inspecting this in
  let warningMap := _warningMap w in
  let warningMap' :=
    match warning_ with
    | Some key =>
        if truthy warning_
        then Map_delete key warningMap
        else Map_clear warningMap
    | None => Map_clear warningMap
    end in
  ({| instance := instance this;
      inspecting :=
        if truthy warning_ && strict_differs inspecting_ warning_
        then inspecting_
        else None;
      _listener := _listener this |},
   with_warningMap warningMap' w).

Definition componentDidMount (this : YellowBox) (w : World)
  : YellowBox * World :=
  let '(h, w') := EventEmitter_addListener (instance this) w in
  ({| instance := instance this;
      inspecting := inspecting this;
      _listener := Some h |},
   w').

(** [if (this._listener && typeof this._listener.remove === 'function')
      this._listener.remove();] *)
Definition componentWillUnmount (this : YellowBox) (w : World)
  : World * completion unit :=
  match _listener this with
  | Some h =>
      match handle_remove h with
      | Some remove => (remove w, Normal tt)
      | None => (w, Normal tt)
      end
  | None => (w, Normal tt)
  end.

End WithHost.
End Index.

(** ** [index.js], the single-file build: what differs from [src/] *)

Module RootIndex.
Section WithHost.
Context `{H : Host}.

(** [...args.slice(argCount).map(stringifySafe)]: the serializer is the
    callback itself, so [map] calls [stringifySafe(arg, index, array)];
    [stringifySafe_callback] is that three-argument call. *)
Variable stringifySafe_callback :
  jsvalue -> nat -> list jsvalue -> completion (option string).

Definition warning (format : jsvalue) (args : list jsvalue)
  : completion string :=
  format' <- String_ format ;;
  let argCount := List.length (String_match_pct_s format') in
  formatted <- Common.sprintf format' (Array_slice_to args argCount) ;;
  serialized <- Array_map stringifySafe_callback
                  (Array_slice_from args argCount) ;;
  Normal (Array_join " " (Some formatted :: serialized)).

Definition updateWarningMap (format : jsvalue) (args : list jsvalue)
    (w : World) : World * completion unit :=
  match warning format args with
  | Throw e => (w, Throw e)
  | Normal warning_ =>
      let count := Common.count_of warning_ (_warningMap w) in
      let w1 :=
        with_warningMap (Map_set warning_ (count + 1)%Z (_warningMap w)) w in
      (EventEmitter_emit w1, Normal tt)
  end.

Definition updateWarningMap_apply (arguments : list jsvalue) (w : World)
  : World * completion unit :=
  updateWarningMap (Array_get arguments 0) (tl arguments) w.

Definition error_wrapper (arguments : list jsvalue) (w : World)
  : World * completion unit :=
  let w1 := original LevelError arguments w in
  if Common.is_warning_call arguments
  then updateWarningMap_apply arguments w1
  else (w1, Normal tt).

(** [warn.apply(console, arguments); updateWarningMap.apply(null,
    arguments);] without the test on [window]. *)
Definition warn_wrapper (arguments : list jsvalue) (w : World)
  : World * completion unit :=
  let w1 := original LevelWarn arguments w in
  updateWarningMap_apply arguments w1.

Definition console_error (env : Environment) (arguments : list jsvalue)
    (w : World) : World * completion unit :=
  if production env
  then (original LevelError arguments w, Normal tt)
  else error_wrapper arguments w.

Definition console_warn (env : Environment) (arguments : list jsvalue)
    (w : World) : World * completion unit :=
  if production env
  then (original LevelWarn arguments w, Normal tt)
  else warn_wrapper arguments w.

(** [if (this._listener) this._listener.remove();]: calling a property that
    is [undefined] throws. *)
Definition componentWillUnmount (this : YellowBox) (w : World)
  : World * completion unit :=
  match _listener this with
  | Some h =>
      match handle_remove h with
      | Some remove => (remove w, Normal tt)
      | None => (w, Throw TypeError)
      end
  | None => (w, Normal tt)
  end.

End WithHost.
End RootIndex.

(** ** The key, as the specification words it

    One pass over the format: each placeholder takes the next argument, in
    order, coerced to a string; what is left of the arguments is serialized
    and appended, a space before each.  A placeholder that finds no argument
    left reads the missing argument, [undefined]. *)

Section Canonical.
Context `{H : Host}.

Fixpoint substitute (format : string) (args : list jsvalue)
  : completion (string * list jsvalue) :=
  match format with
  | String "%" (String "s" rest) =>
      r <- ToString (hd VUndefined args) ;;
      p <- substitute rest (tl args) ;;
      Normal ((r ++ fst p)%string, snd p)
  | String c rest =>
      p <- substitute rest args ;;
      Normal (String c (fst p), snd p)
  | EmptyString => Normal (EmptyString, args)
  end.

Fixpoint append_serialized (key : string) (trailing : list jsvalue)
  : completion string :=
  match trailing with
  | [] => Normal key
  | arg :: trailing' =>
      x <- stringifySafe arg ;;
      append_serialized (key ++ " " ++ join_element x) trailing'
  end.

Definition canonical_key (format : jsvalue) (args : list jsvalue)
  : completion string :=
  format' <- String_ format ;;
  p <- substitute format' args ;;
  append_serialized (fst p) (snd p).

End Canonical.

(** ** Runs of the process *)

Section Runs.
Context `{H : Host}.
Variable env : Environment.

Inductive Operation : Type :=
| Call_console_error (arguments : list jsvalue)
| Call_console_warn (arguments : list jsvalue)
| Call_updateWarningMap (format : jsvalue) (args : list jsvalue)
| Call_dismissWarning (warning_ : option string) (this : YellowBox)
| Call_componentDidMount (this : YellowBox)
| Call_componentWillUnmount (this : YellowBox)
| Assign_ignoredYellowBox (i : IgnoredYellowBox)
| Turn.

Definition perform (w : World) (op : Operation) : World :=
  match op with
  | Call_console_error arguments =>
      fst (Common.console_error env arguments w)
  | Call_console_warn arguments =>
      fst (Common.console_warn env arguments w)
  | Call_updateWarningMap format args =>
      fst (Common.updateWarningMap format args w)
  | Call_dismissWarning warning_ this =>
      snd (Index.dismissWarning warning_ this w)
  | Call_componentDidMount this =>
      snd (Index.componentDidMount this w)
  | Call_componentWillUnmount this =>
      fst (Index.componentWillUnmount this w)
  | Assign_ignoredYellowBox i => with_ignoredYellowBox i w
  | Turn => run_immediates w
  end.

Definition run (ops : list Operation) (w : World) : World :=
  fold_left perform ops w.

Inductive reachable : World -> Prop :=
| reachable_initial : reachable initial_World
| reachable_perform (w : World) (op : Operation) :
    reachable w -> reachable (perform w op).

(** A synchronous block of [record] calls: nothing else runs in between. *)
Definition record_block (calls : list (jsvalue * list jsvalue)) (w : World)
  : World :=
  fold_left
    (fun w call => fst (Common.updateWarningMap (fst call) (snd call) w))
    calls w.

(** How many callbacks of one listener wait in the queue, and how many
    notifications it has received. *)
Definition pending (l : nat) (queue : list Task) : nat :=
  List.length (filter (fun t => Nat.eqb (closure t) l) queue).

Definition received (l : nat) (ns : list Notification)
  : list Notification :=
  filter (fun n => Nat.eqb (to_listener n) l) ns.

(** What dismissing one key is to do to the map: nothing when the key is
    absent, and otherwise take out its entry and leave the others as they
    are, in their order. *)
Definition dismiss_removes_one (key : string) (this : YellowBox)
    (w : World) : Prop :=
  let m := _warningMap w in
  let m' := _warningMap (snd (Index.dismissWarning (Some key) this w)) in
  (Map_has key m = false -> m' = m)
  /\ (forall c before after,
         m = (before ++ (key, c) :: after)%list ->
         Map_has key before = false ->
         m' = (before ++ after)%list).

(** A call reached the host's own logger: it is the last line of the
    console output, with the arguments as they were given. *)
Definition forwarded (level : Level) (arguments : list jsvalue)
    (w w' : World) : Prop :=
  console_output w' = (console_output w ++ [(level, arguments)])%list.

(** ** The schedule of notifications *)

(** Who listens: the closures by their identity, with the component each
    one tells. *)
Definition subscribers (ls : list Listener) : list (nat * nat) :=
  map (fun l => (lid l, owner l)) ls.

Definition subscribed (l o : nat) (w : World) : Prop :=
  In (l, o) (subscribers (_warningEmitter w)).

(** The listeners of one identity that an [emit] will schedule. *)
Definition unscheduled (l : nat) (ls : list Listener) : nat :=
  List.length
    (filter (fun x => Nat.eqb (lid x) l &&
                      match scheduled x with Some _ => false | None => true
                      end) ls).

(** A listener once the callbacks of a queue have run. *)
Definition settle (queue : list Task) (l : Listener) : Listener :=
  if existsb (fun t => Nat.eqb (lid l) (closure t)) queue
  then {| lid := lid l; owner := owner l; scheduled := None |}
  else l.

(** What the callback of a task tells its component. *)
Definition notify (m : WarningMap) (t : Task) : Notification :=
  {| to_listener := closure t; to_component := this_ t; contents := m |}.

(** The variable [scheduled] of every listener says whether one of its
    callbacks is waiting, and never more than one is. *)
Definition sound_schedule (w : World) : Prop :=
  NoDup (map lid (_warningEmitter w))
  /\ (forall l, In l (_warningEmitter w) -> lid l < nextListener w)
  /\ (forall l, In l (_warningEmitter w) ->
         pending (lid l) (immediates w) =
         match scheduled l with Some _ => 1 | None => 0 end)
  /\ (forall t, In t (immediates w) ->
         In (closure t, this_ t) (subscribers (_warningEmitter w))).

End Runs.

(** ** A host for examples

    Numbers are the integers, printed in decimal; an object is given by what
    its two conversions do. *)

Module Example.

Record Behaviour : Type := {
  toString_result : completion string;
  stringify_result : completion (option string)
}.

Definition decimal (n : Z) : string :=
  DecimalString.NilZero.string_of_int (Z.to_int n).

Definition double_quote : string := String "034"%char EmptyString.

Definition hex_digit (n : nat) : string :=
  String (nth n (list_ascii_of_string "0123456789abcdef") "0"%char)
    EmptyString.

(** QuoteJSONString, on one code unit and on a string. *)
Definition quote_code_unit (c : ascii) : string :=
  let n := nat_of_ascii c in
  if Nat.eqb n 8 then "\b"
  else if Nat.eqb n 9 then "\t"
  else if Nat.eqb n 10 then "\n"
  else if Nat.eqb n 12 then "\f"
  else if Nat.eqb n 13 then "\r"
  else if Nat.eqb n 34 then "\" ++ double_quote
  else if Nat.eqb n 92 then "\\"
  else if Nat.ltb n 32
       then "\u00" ++ hex_digit (n / 16) ++ hex_digit (n mod 16)
       else String c EmptyString.

Fixpoint quote_code_units (s : string) : string :=
  match s with
  | EmptyString => EmptyString
  | String c s' => quote_code_unit c ++ quote_code_units s'
  end.

Definition QuoteJSONString (s : string) : string :=
  double_quote ++ quote_code_units s ++ double_quote.

(** [stringifySafe] on a primitive is [JSON.stringify]; on an object it is
    what the object says. *)
Definition example_stringifySafe (v : value Z Behaviour)
  : completion (option string) :=
  match v with
  | VUndefined => Normal None
  | VNull => Normal (Some "null")
  | VBoolean true => Normal (Some "true")
  | VBoolean false => Normal (Some "false")
  | VNumber n => Normal (Some (decimal n))
  | VString s => Normal (Some (QuoteJSONString s))
  | VSymbol _ => Normal None
  | VObject o => stringify_result o
  end.

Definition host : Host :=
  {| number := Z;
     object := Behaviour;
     NumberToString := decimal;
     ObjectToString := toString_result;
     stringifySafe := example_stringifySafe |}.


(** [{toJSON() { throw new Error('no') }}] *)
Definition faulty : value Z Behaviour :=
  VObject
    {| toString_result := Normal "[object Object]";
       stringify_result := Throw (Uncaught "Error: no") |}.

Definition development : Environment :=
  {| NODE_ENV := Some "development"; window_defined := true |}.

(** A terminal: no [window]. *)
Definition terminal : Environment :=
  {| NODE_ENV := Some "development"; window_defined := false |}.

Definition box : YellowBox := new_YellowBox 0.

End Example.

(** ** [render] of [YellowBox] in [src/index.js], and its handlers *)

(** The props that [render] hands to a [WarningRow] (its React key is the
    warning) and to the [WarningInspector]; [count] of the inspector is
    [warningMap.get(inspecting)], [undefined] for a key that is absent. *)
Record RowProps : Type := {
  row_count : Z;
  row_warning : string
}.

Record InspectorProps : Type := {
  inspector_count : option Z;
  inspector_warning : string
}.

(** What [render] returns when it is not [null]. *)
Record Rendered : Type := {
  list_rows : list RowProps;
  inspector : option InspectorProps
}.

Definition Map_size (m : WarningMap) : nat := List.length m.

Definition row_of (entry : string * Z) : RowProps :=
  {| row_count := snd entry; row_warning := fst entry |}.

Section View.
Context `{H : Host}.

(** The callback of [this.state.warningMap.forEach]:
    [if (!isWarningIgnored(warning)) rows.push(<WarningRow ... />)]. *)
Definition push_row (w : World) (rows : list RowProps) (entry : string * Z)
  : list RowProps :=
  if negb (Common.isWarningIgnored (fst entry) w)
  then (rows ++ [row_of entry])%list
  else rows.

(** [render()]; [disableYellowBox] is the truthiness of
    [console.disableYellowBox] at the call. *)
Definition render (disableYellowBox : bool) (this : YellowBox) (w : World)
  : option Rendered :=
  if disableYellowBox || Nat.eqb (Map_size (_warningMap w)) 0
  then None
  else
    let inspector_ :=
      match inspecting this with
      | Some inspecting_ =>
          Some {| inspector_count := Map_get inspecting_ (_warningMap w);
                  inspector_warning := inspecting_ |}
      | None => None
      end in
    let rows := fold_left (push_row w) (_warningMap w) [] in
    Some {| list_rows := rows; inspector := inspector_ |}.

(** [this.setState({inspecting: x})], as the [onClick] of a row and the
    [onClose] of the inspector call it. *)
Definition setState_inspecting (x : option string) (this : YellowBox)
  : YellowBox :=
  {| instance := instance this;
     inspecting := x;
     _listener := _listener this |}.

(** What can happen to one mounted box: a warning is recorded, the event
    loop turns, a row that is on screen is clicked, the inspector is closed,
    or [dismissWarning] is called (by the inspector with the inspected
    warning or [null], by a row of the terminal binding with its own
    warning). *)
Inductive Gesture : Type :=
| Warned (format : jsvalue) (args : list jsvalue)
| Ticked
| Row_clicked (warning_ : string)
| Inspector_closed
| Dismissed (warning_ : option string).

Definition on_screen (warning_ : string) (v : option Rendered) : bool :=
  match v with
  | Some r =>
      existsb (fun row => String.eqb (row_warning row) warning_)
        (list_rows r)
  | None => false
  end.

Definition react (state : YellowBox * World) (g : bool * Gesture)
  : YellowBox * World :=
  let this := fst state in
  let w := snd state in
  match snd g with
  | Warned format args => (this, fst (Common.updateWarningMap format args w))
  | Ticked => (this, run_immediates w)
  | Row_clicked warning_ =>
      if on_screen warning_ (render (fst g) this w)
      then (setState_inspecting (Some warning_) this, w)
      else state
  | Inspector_closed => (setState_inspecting None this, w)
  | Dismissed warning_ => Index.dismissWarning warning_ this w
  end.

(** The inspector, if open, is on a warning that is in the map. *)
Definition inspecting_present (state : YellowBox * World) : Prop :=
  forall key, inspecting (fst state) = Some key ->
              Map_has key (_warningMap (snd state)) = true.

(** ** Measures of a run *)

(** Whether a call builds its key. *)
Definition builds_key (call : jsvalue * list jsvalue) : bool :=
  match Common.warning (fst call) (snd call) with
  | Normal _ => true
  | Throw _ => false
  end.

(** Whether an operation is a call of [console.error] or [console.warn],
    and the line that the host's logger prints for it. *)
Definition console_line (op : Operation)
  : option (Level * list jsvalue) :=
  match op with
  | Call_console_error arguments => Some (LevelError, arguments)
  | Call_console_warn arguments => Some (LevelWarn, arguments)
  | _ => None
  end.

Fixpoint console_lines (ops : list Operation)
  : list (Level * list jsvalue) :=
  match ops with
  | [] => []
  | op :: ops' =>
      match console_line op with
      | Some line => line :: console_lines ops'
      | None => console_lines ops'
      end
  end.

Definition only_console (ops : list Operation) : Prop :=
  forall op, In op ops -> console_line op <> None.

(** Values whose coercion to a string is fixed by the language. *)
Definition primitive (v : jsvalue) : bool :=
  match v with
  | VSymbol _ | VObject _ => false
  | _ => true
  end.

End View.

(** The sum of the counts of a map. *)
Definition total (m : WarningMap) : Z :=
  fold_right Z.add 0%Z (map snd m).

(** A string without the character [%]. *)
Fixpoint percent_free (s : string) : bool :=
  match s with
  | EmptyString => true
  | String c s' => negb (Ascii.eqb c "%") && percent_free s'
  end.

(** * Properties *)

Unset Implicit Arguments.

(** ** Completions *)

Lemma bind_Normal (A B : Type) (c : completion A) (k : A -> completion B)
    (b : B) :
  bind c k = Normal b <-> exists a, c = Normal a /\ k a = Normal b.
Proof.
  destruct c as [a|e]; simpl; split.
  - intros Hk. exists a. split; [reflexivity | exact Hk].
  - intros [a' [Ha Hk]]. injection Ha as ->. exact Hk.
  - discriminate.
  - intros [a' [Ha _]]. discriminate.
Qed.

Lemma is_normal_bind (A B : Type) (c : completion A)
    (k : A -> completion B) :
  is_normal (bind c k) <-> exists a, c = Normal a /\ is_normal (k a).
Proof.
  unfold is_normal. split.
  - intros [b Hb]. apply bind_Normal in Hb. destruct Hb as [a [Ha Hk]].
    exists a. split; [exact Ha | exists b; exact Hk].
  - intros [a [Ha [b Hb]]]. exists b. apply bind_Normal.
    exists a. split; assumption.
Qed.

Lemma is_normal_Normal (A : Type) (a : A) : is_normal (Normal a).
Proof. exists a. reflexivity. Qed.

Lemma not_normal_Throw (A : Type) (e : error) : ~ is_normal (@Throw A e).
Proof. intros [a Ha]. discriminate. Qed.

(** ** Scanning a format for [%s] *)

Lemma after_placeholder_Some (c : ascii) (rest rest' : string) :
  after_placeholder c rest = Some rest' ->
  c = "%"%char /\ rest = String "s" rest'.
Proof.
  destruct c as [[] [] [] [] [] [] [] []]; try discriminate.
  destruct rest as [|d r]; [discriminate|].
  destruct d as [[] [] [] [] [] [] [] []]; try discriminate.
  intros Heq. injection Heq as ->. split; reflexivity.
Qed.

Lemma String_match_pct_s_cons (c : ascii) (rest : string) :
  String_match_pct_s (String c rest) =
  match after_placeholder c rest with
  | Some rest' => "%s" :: String_match_pct_s rest'
  | None => String_match_pct_s rest
  end.
Proof.
  destruct c as [[] [] [] [] [] [] [] []]; try reflexivity.
  destruct rest as [|d r]; [reflexivity|].
  destruct d as [[] [] [] [] [] [] [] []]; reflexivity.
Qed.

(** Induction along the scan: a placeholder is skipped as a whole. *)
Lemma scan_ind (P : string -> Prop) :
  P EmptyString ->
  (forall rest, P rest -> P (String "%" (String "s" rest))) ->
  (forall c rest,
      after_placeholder c rest = None -> P rest -> P (String c rest)) ->
  forall s, P s.
Proof.
  intros Hnil Hhit Hmiss s.
  assert (Hboth : P s /\ (forall c, P (String c s))).
  { induction s as [|d s IH].
    - split; [exact Hnil|].
      intros c. apply Hmiss; [|exact Hnil].
      destruct c as [[] [] [] [] [] [] [] []]; reflexivity.
    - destruct IH as [IHs IHc]. split; [apply IHc|].
      intros c. destruct (after_placeholder c (String d s)) as [r|] eqn:Hap.
      + apply after_placeholder_Some in Hap. destruct Hap as [-> Hr].
        injection Hr as -> ->. apply Hhit. exact IHs.
      + apply Hmiss; [exact Hap | apply IHc]. }
  exact (proj1 Hboth).
Qed.

(** ** Lists and strings *)

Lemma string_append_assoc (a b c : string) :
  ((a ++ b) ++ c)%string = (a ++ (b ++ c))%string.
Proof.
  induction a as [|x a IH]; simpl; [reflexivity | now rewrite IH].
Qed.

Lemma hd_skipn (A : Type) (d : A) (l : list A) (i : nat) :
  hd d (skipn i l) = nth i l d.
Proof.
  revert l. induction i as [|i IH]; intros [|a l]; simpl; auto.
Qed.

Lemma tl_skipn (A : Type) (l : list A) (i : nat) :
  tl (skipn i l) = skipn (S i) l.
Proof.
  revert l. induction i as [|i IH]; intros [|a l]; simpl; auto.
Qed.

Lemma nth_firstn_lt (A : Type) (d : A) (l : list A) (i n : nat) :
  i < n -> nth i (firstn n l) d = nth i l d.
Proof.
  revert l n. induction i as [|i IH]; intros [|a l] [|n] Hlt; simpl;
    try lia; try reflexivity.
  apply IH. lia.
Qed.



Section KeyProofs.
Context `{H : Host}.

Lemma String_replace_pct_s_cons (S : Type) (c : ascii) (rest : string)
    (replaceValue : string -> S -> jsvalue * S) (captured : S) :
  String_replace_pct_s (String c rest) replaceValue captured =
  match after_placeholder c rest with
  | Some rest' =>
      let '(v, captured') := replaceValue "%s" captured in
      r <- ToString v ;;
      t <- String_replace_pct_s rest' replaceValue captured' ;;
      Normal (r ++ t)
  | None =>
      t <- String_replace_pct_s rest replaceValue captured ;;
      Normal (String c t)
  end.
Proof.
  destruct c as [[] [] [] [] [] [] [] []]; try reflexivity.
  destruct rest as [|d r]; [reflexivity|].
  destruct d as [[] [] [] [] [] [] [] []]; reflexivity.
Qed.

Lemma substitute_cons (c : ascii) (rest : string) (args : list jsvalue) :
  substitute (String c rest) args =
  match after_placeholder c rest with
  | Some rest' =>
      r <- ToString (hd VUndefined args) ;;
      p <- substitute rest' (tl args) ;;
      Normal ((r ++ fst p)%string, snd p)
  | None =>
      p <- substitute rest args ;;
      Normal (String c (fst p), snd p)
  end.
Proof.
  destruct c as [[] [] [] [] [] [] [] []]; try reflexivity.
  destruct rest as [|d r]; [reflexivity|].
  destruct d as [[] [] [] [] [] [] [] []]; reflexivity.
Qed.

(** The callback of [sprintf], reading [args.slice(0, N)], walks the
    arguments exactly as the one-pass substitution does. *)
Lemma sprintf_substitute (format : string) :
  forall (args : list jsvalue) (i N : nat),
    N = i + List.length (String_match_pct_s format) ->
    substitute format (skipn i args) =
    (t <- String_replace_pct_s format
            (fun _match index =>
               (Array_get (Array_slice_to args N) index, S index)) i ;;
     Normal (t, skipn N args)).
Proof.
  induction format as [|rest IH|c rest Hmiss IH] using scan_ind;
    intros args i N HN.
  - simpl in *. replace N with i by lia. reflexivity.
  - rewrite String_match_pct_s_cons in HN. simpl in HN.
    rewrite substitute_cons, String_replace_pct_s_cons.
    cbn [after_placeholder].
    rewrite hd_skipn, tl_skipn.
    unfold Array_get at 1, Array_slice_to at 1.
    rewrite nth_firstn_lt by lia.
    destruct (ToString (nth i args VUndefined)) as [r|e]; cbn [bind];
      [|reflexivity].
    rewrite (IH args (S i) N) by lia.
    destruct (String_replace_pct_s rest _ (S i)) as [t|e]; reflexivity.
  - rewrite String_match_pct_s_cons, Hmiss in HN.
    rewrite substitute_cons, String_replace_pct_s_cons, Hmiss.
    rewrite (IH args i N HN).
    destruct (String_replace_pct_s rest _ i) as [t|e]; reflexivity.
Qed.

Lemma Array_map_from_ignoring (A B : Type) (f : A -> completion B)
    (arr : list A) :
  forall (todo : list A) (k : nat),
    Array_map_from (fun a _ _ => f a) arr k todo = mapM f todo.
Proof.
  induction todo as [|a todo IH]; intros k; simpl; [reflexivity|].
  destruct (f a) as [b|e]; simpl; [|reflexivity].
  rewrite IH. reflexivity.
Qed.

Lemma Array_join_push (key : string) (x : option string)
    (xs : list (option string)) :
  Array_join " " (Some (key ++ " " ++ join_element x)%string :: xs) =
  Array_join " " (Some key :: x :: xs).
Proof.
  destruct xs as [|y ys]; simpl.
  - reflexivity.
  - rewrite string_append_assoc. simpl. reflexivity.
Qed.

Lemma append_serialized_join (trailing : list jsvalue) :
  forall key : string,
    append_serialized key trailing =
    (xs <- mapM (fun arg => stringifySafe arg) trailing ;;
     Normal (Array_join " " (Some key :: xs))).
Proof.
  induction trailing as [|arg trailing IH]; intros key;
    cbn [append_serialized mapM bind].
  - reflexivity.
  - destruct (stringifySafe arg) as [x|e]; cbn [bind]; [|reflexivity].
    rewrite IH.
    destruct (mapM (fun arg0 => stringifySafe arg0) trailing) as [xs|e];
      cbn [bind]; [|reflexivity].
    rewrite Array_join_push. reflexivity.
Qed.

Lemma warning_canonical (format : jsvalue) (args : list jsvalue) :
  Common.warning format args = canonical_key format args.
Proof.
  unfold Common.warning, canonical_key.
  destruct (String_ format) as [f|e]; simpl; [|reflexivity].
  unfold Common.sprintf, Array_map, Array_slice_from.
  rewrite Array_map_from_ignoring.
  pose proof (sprintf_substitute f args 0
                (List.length (String_match_pct_s f)) eq_refl) as Hs.
  simpl in Hs. rewrite Hs.
  destruct (String_replace_pct_s f _ 0) as [t|e]; simpl; [|reflexivity].
  rewrite append_serialized_join. reflexivity.
Qed.

End KeyProofs.


(** The single-file build computes the same key whenever the serializer
    does not look at the index and the array that [map] hands to it. *)
Lemma RootIndex_warning_canonical `{H : Host}
    (stringifySafe_callback :
       jsvalue -> nat -> list jsvalue -> completion (option string))
    (format : jsvalue) (args : list jsvalue) :
  (forall arg k arr, stringifySafe_callback arg k arr = stringifySafe arg) ->
  RootIndex.warning stringifySafe_callback format args =
  canonical_key format args.
Proof.
  intros Hcb. rewrite <- warning_canonical.
  unfold RootIndex.warning, Common.warning.
  destruct (String_ format) as [f|e]; simpl; [|reflexivity].
  destruct (Common.sprintf f _) as [t|e]; simpl; [|reflexivity].
  unfold Array_map.
  assert (Hmap : forall arr todo k,
             Array_map_from stringifySafe_callback arr k todo =
             Array_map_from (fun arg _ _ => stringifySafe arg) arr k todo).
  { intros arr todo. induction todo as [|a todo IH]; intros k; simpl.
    - reflexivity.
    - rewrite Hcb, IH. reflexivity. }
  rewrite Hmap. reflexivity.
Qed.

(** ** The map *)

Local Open Scope list_scope.

Lemma Map_has_get (key : string) (m : WarningMap) :
  Map_has key m = true <-> exists c, Map_get key m = Some c.
Proof.
  induction m as [|[k v] m IH]; simpl.
  - split; [discriminate | intros [c Hc]; discriminate].
  - destruct (String.eqb k key).
    + split; [intros _; exists v; reflexivity | reflexivity].
    + exact IH.
Qed.

Lemma Map_has_false_get (key : string) (m : WarningMap) :
  Map_has key m = false <-> Map_get key m = None.
Proof.
  induction m as [|[k v] m IH]; simpl.
  - split; reflexivity.
  - destruct (String.eqb k key); [split; discriminate | exact IH].
Qed.

Lemma Map_has_In (key : string) (m : WarningMap) :
  Map_has key m = true <-> In key (Map_keys m).
Proof.
  induction m as [|[k v] m IH]; simpl.
  - split; [discriminate | contradiction].
  - destruct (String.eqb k key) eqn:Hk.
    + apply String.eqb_eq in Hk.
      split; [intros _; left; exact Hk | reflexivity].
    + apply String.eqb_neq in Hk. rewrite IH. split.
      * intros Hin. right. exact Hin.
      * intros [Heq | Hin]; [contradiction | exact Hin].
Qed.

Lemma Map_get_In (key : string) (c : Z) (m : WarningMap) :
  Map_get key m = Some c -> In (key, c) m.
Proof.
  induction m as [|[k v] m IH]; simpl; [discriminate|].
  destruct (String.eqb k key) eqn:Hk.
  - apply String.eqb_eq in Hk. intros Heq. injection Heq as ->.
    left. rewrite Hk. reflexivity.
  - intros Hget. right. apply IH. exact Hget.
Qed.

(** A present key sits at one place, counted from the front. *)
Lemma Map_get_split (key : string) (c : Z) (m : WarningMap) :
  Map_get key m = Some c ->
  exists before after,
    m = before ++ (key, c) :: after /\ Map_has key before = false.
Proof.
  induction m as [|[k v] m IH]; simpl; [discriminate|].
  destruct (String.eqb k key) eqn:Hk.
  - apply String.eqb_eq in Hk. intros Heq. injection Heq as ->.
    exists [], m. rewrite Hk. split; reflexivity.
  - intros Hget. destruct (IH Hget) as [before [after [Hm Hb]]].
    exists ((k, v) :: before), after. split.
    + rewrite Hm. reflexivity.
    + simpl. rewrite Hk. exact Hb.
Qed.

Lemma Map_get_at (key : string) (c : Z) (before after : WarningMap) :
  Map_has key before = false ->
  Map_get key (before ++ (key, c) :: after) = Some c.
Proof.
  induction before as [|[k v] before IH]; simpl.
  - rewrite String.eqb_refl. reflexivity.
  - destruct (String.eqb k key); [discriminate | exact IH].
Qed.

Lemma Map_has_at (key : string) (c : Z) (before after : WarningMap) :
  Map_has key (before ++ (key, c) :: after) = true.
Proof.
  induction before as [|[k v] before IH]; simpl.
  - rewrite String.eqb_refl. reflexivity.
  - destruct (String.eqb k key); [reflexivity | exact IH].
Qed.

Lemma Map_set_at (key : string) (c v : Z) (before after : WarningMap) :
  Map_has key before = false ->
  Map_set key v (before ++ (key, c) :: after) = before ++ (key, v) :: after.
Proof.
  induction before as [|[k v'] before IH]; simpl.
  - rewrite String.eqb_refl. reflexivity.
  - destruct (String.eqb k key); [discriminate|].
    intros Hb. rewrite (IH Hb). reflexivity.
Qed.

Lemma Map_set_absent (key : string) (v : Z) (m : WarningMap) :
  Map_has key m = false -> Map_set key v m = m ++ [(key, v)].
Proof.
  induction m as [|[k v'] m IH]; simpl.
  - reflexivity.
  - destruct (String.eqb k key); [discriminate|].
    intros Hm. rewrite (IH Hm). reflexivity.
Qed.

Lemma Map_delete_at (key : string) (c : Z) (before after : WarningMap) :
  Map_has key before = false ->
  Map_delete key (before ++ (key, c) :: after) = before ++ after.
Proof.
  induction before as [|[k v'] before IH]; simpl.
  - rewrite String.eqb_refl. reflexivity.
  - destruct (String.eqb k key); [discriminate|].
    intros Hb. rewrite (IH Hb). reflexivity.
Qed.

Lemma Map_delete_absent (key : string) (m : WarningMap) :
  Map_has key m = false -> Map_delete key m = m.
Proof.
  induction m as [|[k v'] m IH]; simpl.
  - reflexivity.
  - destruct (String.eqb k key); [discriminate|].
    intros Hm. rewrite (IH Hm). reflexivity.
Qed.

Lemma entries_of_absent (key : string) (m : WarningMap) :
  Map_has key m = false -> entries_of key m = [].
Proof.
  induction m as [|[k v] m IH]; simpl; [reflexivity|].
  destruct (String.eqb k key); [discriminate | exact IH].
Qed.

Lemma entries_of_app (key : string) (m1 m2 : WarningMap) :
  entries_of key (m1 ++ m2) = entries_of key m1 ++ entries_of key m2.
Proof. apply filter_app. Qed.

Section StoreProofs.
Context `{H : Host}.

Lemma emit_to_queue (ls : list Listener) :
  forall (queue : list Task) (next : Immediate),
    map lid (fst (fst (emit_to ls queue next))) = map lid ls.
Proof.
  induction ls as [|l ls IH]; intros queue next; simpl; [reflexivity|].
  unfold listener_call, setImmediate.
  destruct (scheduled l) as [h|].
  - specialize (IH queue next).
    destruct (emit_to ls queue next) as [[ls' q'] n']. simpl in *.
    rewrite IH. reflexivity.
  - match goal with
    | |- context [emit_to ls ?q ?n] =>
        specialize (IH q n); destruct (emit_to ls q n) as [[ls' q'] n']
    end.
    simpl in *. rewrite IH. reflexivity.
Qed.

Lemma emit_warningMap (w : World) :
  _warningMap (EventEmitter_emit w) = _warningMap w.
Proof.
  unfold EventEmitter_emit.
  destruct (emit_to _ _ _) as [[ls q] n]. reflexivity.
Qed.

Lemma emit_console_output (w : World) :
  console_output (EventEmitter_emit w) = console_output w.
Proof.
  unfold EventEmitter_emit.
  destruct (emit_to _ _ _) as [[ls q] n]. reflexivity.
Qed.

Lemma emit_notifications (w : World) :
  notifications (EventEmitter_emit w) = notifications w.
Proof.
  unfold EventEmitter_emit.
  destruct (emit_to _ _ _) as [[ls q] n]. reflexivity.
Qed.

Lemma count_of_at (key : string) (c : Z) (before after : WarningMap) :
  Map_has key before = false ->
  Common.count_of key (before ++ (key, c) :: after) = c.
Proof.
  intros Hb. unfold Common.count_of.
  rewrite Map_has_at, (Map_get_at key c before after Hb). reflexivity.
Qed.

Lemma count_of_absent (key : string) (m : WarningMap) :
  Map_has key m = false -> Common.count_of key m = 0%Z.
Proof. intros Hm. unfold Common.count_of. rewrite Hm. reflexivity. Qed.

(** What one call does to the map. *)
Lemma updateWarningMap_warningMap (format : jsvalue) (args : list jsvalue)
    (w : World) :
  _warningMap (fst (Common.updateWarningMap format args w)) =
  match Common.warning format args with
  | Normal key =>
      Map_set key (Common.count_of key (_warningMap w) + 1)%Z
        (_warningMap w)
  | Throw _ => _warningMap w
  end.
Proof.
  unfold Common.updateWarningMap.
  destruct (Common.warning format args) as [key|e]; simpl; [|reflexivity].
  rewrite emit_warningMap. reflexivity.
Qed.

Lemma record_block_repeat (format : jsvalue) (args : list jsvalue)
    (key : string) (before : WarningMap) :
  Common.warning format args = Normal key ->
  Map_has key before = false ->
  forall (n : nat) (c : Z) (w : World),
    _warningMap w = before ++ [(key, c)] ->
    _warningMap (record_block (repeat (format, args) n) w) =
    before ++ [(key, (c + Z.of_nat n)%Z)].
Proof.
  intros Hkey Hb. induction n as [|n IH]; intros c w Hw.
  - simpl. rewrite Hw, Z.add_0_r. reflexivity.
  - cbn [repeat record_block fold_left fst snd].
    change (fold_left _ (repeat (format, args) n) ?w0)
      with (record_block (repeat (format, args) n) w0).
    rewrite (IH (c + 1)%Z).
    + replace (c + 1 + Z.of_nat n)%Z with (c + Z.of_nat (S n))%Z by lia.
      reflexivity.
    + rewrite updateWarningMap_warningMap, Hkey, Hw.
      rewrite (count_of_at key c before [] Hb),
        (Map_set_at key c _ before [] Hb).
      reflexivity.
Qed.

End StoreProofs.

(** C2. A call whose key is present adds exactly 1 to its count, in place;
    a call whose key is absent puts it last with count 1; so after any number
    of identical calls, starting without the key, the map has one entry for
    it, and its count is the number of calls. *)
Theorem C2_record_counts `{H : Host} (format : jsvalue)
    (args : list jsvalue) (key : string) (w : World) :
  Common.warning format args = Normal key ->
  (forall c before after,
      _warningMap w = before ++ (key, c) :: after ->
      Map_has key before = false ->
      _warningMap (fst (Common.updateWarningMap format args w)) =
      before ++ (key, (c + 1)%Z) :: after)
  /\ (Map_has key (_warningMap w) = false ->
      _warningMap (fst (Common.updateWarningMap format args w)) =
      _warningMap w ++ [(key, 1%Z)])
  /\ (forall n : nat,
         Map_has key (_warningMap w) = false ->
         let m := _warningMap
                    (record_block (repeat (format, args) (S n)) w) in
         m = _warningMap w ++ [(key, Z.of_nat (S n))]
         /\ entries_of key m = [(key, Z.of_nat (S n))]).
Proof.
  intros Hkey. split; [|split].
  - intros c before after Hw Hb.
    rewrite updateWarningMap_warningMap, Hkey, Hw.
    rewrite (count_of_at key c before after Hb),
      (Map_set_at key c _ before after Hb).
    reflexivity.
  - intros Hm.
    rewrite updateWarningMap_warningMap, Hkey.
    rewrite (count_of_absent key _ Hm), (Map_set_absent key _ _ Hm).
    reflexivity.
  - intros n Hm m.
    assert (Heq : m = _warningMap w ++ [(key, Z.of_nat (S n))]).
    { subst m. cbn [repeat record_block fold_left fst snd].
      change (fold_left _ (repeat (format, args) n) ?w0)
        with (record_block (repeat (format, args) n) w0).
      rewrite (record_block_repeat format args key (_warningMap w) Hkey Hm n
                 1%Z).
      - replace (1 + Z.of_nat n)%Z with (Z.of_nat (S n)) by lia.
        reflexivity.
      - rewrite updateWarningMap_warningMap, Hkey.
        rewrite (count_of_absent key _ Hm), (Map_set_absent key _ _ Hm).
        reflexivity. }
    split; [exact Heq|].
    rewrite Heq, entries_of_app, (entries_of_absent key _ Hm). simpl.
    rewrite String.eqb_refl. reflexivity.
Qed.

Lemma C2_witness :
  Common.warning (H := Example.host) (VString "%s items") [VNumber 1%Z]
  = Normal "1 items"%string
  /\ _warningMap
       (fst (Common.updateWarningMap (H := Example.host)
               (VString "%s items") [VNumber 1%Z] initial_World))
     = [("1 items"%string, 1%Z)].
Proof.
  split; [reflexivity|].
  apply (C2_record_counts (H := Example.host) (VString "%s items")
           [VNumber 1%Z] "1 items" initial_World).
  - reflexivity.
  - reflexivity.
Defined.

(** [record("%s items", 1)] twice: one entry, counted 2. *)
Example two_identical_calls :
  _warningMap
    (record_block (H := Example.host)
       (repeat (VString "%s items", [VNumber 1%Z]) 2) initial_World)
  = [("1 items"%string, 2%Z)].
Proof. reflexivity. Qed.

(** ** What every reachable map satisfies *)

Lemma Map_keys_set (key : string) (v : Z) (m : WarningMap) :
  Map_keys (Map_set key v m) =
  if Map_has key m then Map_keys m else Map_keys m ++ [key].
Proof.
  induction m as [|[k v'] m IH]; simpl; [reflexivity|].
  destruct (String.eqb k key) eqn:Hk; simpl; [reflexivity|].
  rewrite IH. destruct (Map_has key m); reflexivity.
Qed.

Lemma Map_set_entries (key : string) (v : Z) (m : WarningMap) (e : string * Z) :
  In e (Map_set key v m) -> In e m \/ e = (key, v).
Proof.
  induction m as [|[k v'] m IH]; simpl.
  - intros [Heq | []]. right. symmetry. exact Heq.
  - destruct (String.eqb k key) eqn:Hk; simpl.
    + apply String.eqb_eq in Hk. subst k.
      intros [Heq | Hin]; [right; symmetry; exact Heq | left; right; exact Hin].
    + intros [Heq | Hin]; [left; left; exact Heq|].
      destruct (IH Hin) as [Hm | Heq];
        [left; right; exact Hm | right; exact Heq].
Qed.

Lemma Map_delete_entries (key : string) (m : WarningMap) (e : string * Z) :
  In e (Map_delete key m) -> In e m.
Proof.
  induction m as [|[k v'] m IH]; simpl; [contradiction|].
  destruct (String.eqb k key); simpl.
  - intros Hin. right. exact Hin.
  - intros [Heq | Hin]; [left; exact Heq | right; apply IH; exact Hin].
Qed.

Lemma Map_keys_delete_NoDup (key : string) (m : WarningMap) :
  NoDup (Map_keys m) ->
  NoDup (Map_keys (Map_delete key m)) /\ Map_has key (Map_delete key m) = false.
Proof.
  induction m as [|[k v'] m IH]; simpl.
  - intros _. split; [constructor | reflexivity].
  - intros Hnd. inversion Hnd as [|k' ks Hnotin Hnd']; subst.
    destruct (String.eqb k key) eqn:Hk; simpl.
    + apply String.eqb_eq in Hk. subst k. split; [exact Hnd'|].
      destruct (Map_has key m) eqn:Hhas; [|reflexivity].
      apply Map_has_In in Hhas. contradiction.
    + destruct (IH Hnd') as [IHnd IHhas]. rewrite Hk. split; [|exact IHhas].
      constructor; [|exact IHnd].
      intros Hin. apply Hnotin.
      apply in_map_iff in Hin. destruct Hin as [[k0 v0] [Hfst Hin]].
      apply Map_delete_entries in Hin.
      apply in_map_iff. exists (k0, v0). split; assumption.
Qed.

Lemma well_counted_set (key : string) (v : Z) (m : WarningMap) :
  (1 <= v)%Z -> well_counted m -> well_counted (Map_set key v m).
Proof.
  intros Hv [Hnd Hpos]. split.
  - rewrite Map_keys_set. destruct (Map_has key m) eqn:Hhas; [exact Hnd|].
    apply NoDup_app; [exact Hnd | repeat constructor; intros [] |].
    intros k Hk [Heq | []]. subst k.
    apply Map_has_In in Hk. congruence.
  - intros k c Hin. apply Map_set_entries in Hin.
    destruct Hin as [Hin | Heq]; [exact (Hpos k c Hin)|].
    injection Heq as _ ->. exact Hv.
Qed.

Lemma well_counted_delete (key : string) (m : WarningMap) :
  well_counted m -> well_counted (Map_delete key m).
Proof.
  intros [Hnd Hpos]. split.
  - apply Map_keys_delete_NoDup. exact Hnd.
  - intros k c Hin. apply (Hpos k c). apply Map_delete_entries in Hin.
    exact Hin.
Qed.

Lemma well_counted_clear : well_counted [].
Proof. split; [constructor | intros k c []]. Qed.

Lemma count_of_nonneg (key : string) (m : WarningMap) :
  well_counted m -> (0 <= Common.count_of key m)%Z.
Proof.
  intros [_ Hpos]. unfold Common.count_of.
  destruct (Map_has key m); [|lia].
  destruct (Map_get key m) as [c|] eqn:Hget; [|lia].
  apply Map_get_In in Hget. specialize (Hpos key c Hget). lia.
Qed.

Section RunProofs.
Context `{H : Host}.
Variable env : Environment.

Lemma callbacks_warningMap (queue : list Task) :
  forall w0 : World,
    _warningMap (fold_left immediate_callback queue w0) = _warningMap w0.
Proof.
  induction queue as [|t queue IH]; intros w0; simpl; [reflexivity|].
  rewrite IH. reflexivity.
Qed.

Lemma run_immediates_warningMap (w : World) :
  _warningMap (run_immediates w) = _warningMap w.
Proof. unfold run_immediates. rewrite callbacks_warningMap. reflexivity. Qed.

Lemma updateWarningMap_well_counted (format : jsvalue)
    (args : list jsvalue) (w : World) :
  well_counted (_warningMap w) ->
  well_counted (_warningMap (fst (Common.updateWarningMap format args w))).
Proof.
  intros Hw. rewrite updateWarningMap_warningMap.
  destruct (Common.warning format args) as [key|e]; [|exact Hw].
  apply well_counted_set; [|exact Hw].
  pose proof (count_of_nonneg key _ Hw). lia.
Qed.

Lemma perform_well_counted (w : World) (op : Operation) :
  well_counted (_warningMap w) ->
  well_counted (_warningMap (perform env w op)).
Proof.
  intros Hw.
  destruct op as [arguments|arguments|format args|warning_ this|this|this|i|];
    simpl.
  - unfold Common.console_error, Common.error_wrapper.
    destruct (production env); [exact Hw|].
    destruct (Common.is_warning_call arguments); [|exact Hw].
    apply updateWarningMap_well_counted. exact Hw.
  - unfold Common.console_warn, Common.warn_wrapper.
    destruct (production env); [exact Hw|].
    apply updateWarningMap_well_counted.
    destruct (window_defined env); exact Hw.
  - apply updateWarningMap_well_counted. exact Hw.
  - destruct warning_ as [key|]; [|apply well_counted_clear].
    destruct (truthy (Some key));
      [apply well_counted_delete; exact Hw | apply well_counted_clear].
  - exact Hw.
  - unfold Index.componentWillUnmount.
    destruct (_listener this) as [[]|]; exact Hw.
  - exact Hw.
  - rewrite run_immediates_warningMap. exact Hw.
Qed.

Lemma run_well_counted (ops : list Operation) :
  forall w : World,
    well_counted (_warningMap w) ->
    well_counted (_warningMap (run env ops w)).
Proof.
  induction ops as [|op ops IH]; intros w Hw; simpl; [exact Hw|].
  apply IH. apply perform_well_counted. exact Hw.
Qed.

(** The worlds that [reachable] describes are the results of [run]. *)
Lemma run_snoc (ops : list Operation) (op : Operation) (w : World) :
  run env (ops ++ [op]) w = perform env (run env ops w) op.
Proof. unfold run. rewrite fold_left_app. reflexivity. Qed.

Lemma reachable_iff_run (w : World) :
  reachable env w <-> exists ops, w = run env ops initial_World.
Proof.
  split.
  - intros Hw. induction Hw as [|w op Hw [ops Hops]].
    + exists []. reflexivity.
    + exists (ops ++ [op]). rewrite run_snoc, <- Hops. reflexivity.
  - intros [ops ->]. induction ops as [|op ops IH] using rev_ind.
    + apply reachable_initial.
    + rewrite run_snoc. apply reachable_perform. exact IH.
Qed.

Lemma dismissWarning_warningMap (warning_ : option string)
    (this : YellowBox) (w : World) :
  _warningMap (snd (Index.dismissWarning warning_ this w)) =
  if truthy warning_
  then match warning_ with
       | Some key => Map_delete key (_warningMap w)
       | None => []
       end
  else [].
Proof.
  destruct warning_ as [key|]; simpl; [|reflexivity].
  destruct (negb (String.eqb key "")); reflexivity.
Qed.

End RunProofs.

(** C3. In every map reached by console calls, records, dismissals, mounts
    and turns of the event loop, a key that is present has a count of at
    least 1; dismissing a key leaves no entry under it, and dismissing all
    leaves no entry. *)
Theorem C3_counts_at_least_one `{H : Host} (env : Environment)
    (ops : list Operation) :
  let w := run env ops initial_World in
  (forall key c, In (key, c) (_warningMap w) -> (1 <= c)%Z)
  /\ (forall key this,
         Map_has key
           (_warningMap (snd (Index.dismissWarning (Some key) this w)))
         = false)
  /\ (forall this,
         _warningMap (snd (Index.dismissWarning None this w)) = []).
Proof.
  intros w.
  assert (Hw : well_counted (_warningMap w)).
  { apply run_well_counted. apply well_counted_clear. }
  split; [|split].
  - exact (proj2 Hw).
  - intros key this. rewrite dismissWarning_warningMap.
    destruct (truthy (Some key)); [|reflexivity].
    apply Map_keys_delete_NoDup. exact (proj1 Hw).
  - intros this. reflexivity.
Qed.

(** ** Dismissing *)

Lemma dismiss_nonempty_key `{H : Host} (key : string) (this : YellowBox)
    (w : World) :
  key <> ""%string -> dismiss_removes_one key this w.
Proof.
  intros Hkey. unfold dismiss_removes_one.
  rewrite dismissWarning_warningMap. simpl.
  apply String.eqb_neq in Hkey. rewrite Hkey. simpl. split.
  - intros Habsent. apply Map_delete_absent. exact Habsent.
  - intros c before after Hm Hb. rewrite Hm.
    apply Map_delete_at. exact Hb.
Qed.

(** C4, amended. For every key but the empty string, [dismiss(key)] takes
    out the entry of that key when there is one, leaves every other entry,
    its count and the order as they were, and changes nothing when the key is
    absent; after [record("a"); record("b"); dismiss("a")] the map holds
    ["b"] with count 1 and nothing else. *)
Theorem C4_dismiss_removes_one `{H : Host} (key : string)
    (this : YellowBox) (w : World) :
  key <> ""%string ->
  dismiss_removes_one key this w
  /\ (forall env,
         _warningMap
           (run env
              [Call_updateWarningMap (VString "a") [];
               Call_updateWarningMap (VString "b") [];
               Call_dismissWarning (Some "a"%string) this]
              initial_World)
         = [("b"%string, 1%Z)]).
Proof.
  intros Hkey. split.
  - apply dismiss_nonempty_key. exact Hkey.
  - intros env. reflexivity.
Qed.

Lemma C4_witness :
  "a"%string <> ""%string
  /\ dismiss_removes_one (H := Example.host) "a" Example.box
       (run Example.development
          [Call_console_warn [VString "a"]; Call_console_warn [VString "b"]]
          initial_World).
Proof.
  split; [discriminate|].
  apply (C4_dismiss_removes_one (H := Example.host) "a" Example.box).
  discriminate.
Defined.

(** C4 as it was stated fails at the empty key: ["b"] is lost with it. *)
Lemma C4_counterexample :
  ~ dismiss_removes_one (H := Example.host) "" Example.box
      (run Example.development
         [Call_console_warn [VString ""]; Call_console_warn [VString "b"]]
         initial_World).
Proof.
  intros [_ Hpresent].
  specialize (Hpresent 1%Z [] [("b"%string, 1%Z)] eq_refl eq_refl).
  discriminate Hpresent.
Qed.

(** C10. [dismissWarning] chooses between its two behaviours by the
    truthiness of its argument.  [record("")] files its warning under the
    empty key; dismissing the empty key clears the whole map, as dismissing
    with [null] does, while a key that is not empty takes out its own entry
    only. *)
Theorem C10_empty_key_clears_all `{H : Host} (this : YellowBox) (w : World) :
  Common.warning (VString "") [] = Normal ""%string
  /\ (forall warning_,
         _warningMap (snd (Index.dismissWarning warning_ this w)) =
         if truthy warning_
         then match warning_ with
              | Some key => Map_delete key (_warningMap w)
              | None => []
              end
         else [])
  /\ truthy (Some ""%string) = false
  /\ _warningMap (snd (Index.dismissWarning (Some ""%string) this w)) = []
  /\ (forall key, key <> ""%string ->
         truthy (Some key) = true /\ dismiss_removes_one key this w)
  /\ (forall env,
         let w2 := run env
                     [Call_updateWarningMap (VString "") [];
                      Call_updateWarningMap (VString "b") []]
                     initial_World in
         _warningMap w2 = [(""%string, 1%Z); ("b"%string, 1%Z)]
         /\ _warningMap (snd (Index.dismissWarning (Some ""%string) this w2))
            = []).
Proof.
  split; [reflexivity|].
  split; [intros warning_; apply dismissWarning_warningMap|].
  split; [reflexivity|].
  split; [reflexivity|].
  split.
  - intros key Hkey. split.
    + simpl. apply String.eqb_neq in Hkey. rewrite Hkey. reflexivity.
    + apply dismiss_nonempty_key. exact Hkey.
  - intros env. split; reflexivity.
Qed.

Lemma C10_witness :
  "b"%string <> ""%string
  /\ dismiss_removes_one (H := Example.host) "b" Example.box
       (run Example.development
          [Call_console_warn [VString ""]; Call_console_warn [VString "b"]]
          initial_World).
Proof.
  split; [discriminate|].
  apply (C10_empty_key_clears_all (H := Example.host) Example.box).
  discriminate.
Defined.

(** ** Prefixes *)

Lemma String_startsWith_prefix (str searchString : string) :
  String_startsWith str searchString = true <->
  exists rest, str = (searchString ++ rest)%string.
Proof.
  revert str. induction searchString as [|c search' IH]; intros str; simpl.
  - split; [intros _; exists str; reflexivity | reflexivity].
  - destruct str as [|d str'].
    + split; [discriminate | intros [rest Hrest]; discriminate].
    + rewrite andb_true_iff, Ascii.eqb_eq, IH. split.
      * intros [-> [rest ->]]. exists rest. reflexivity.
      * intros [rest Hrest]. injection Hrest as -> ->.
        split; [reflexivity | exists rest; reflexivity].
Qed.

(** ** The console wrappers *)

Section WrapperProofs.
Context `{H : Host}.

Lemma updateWarningMap_console_output (format : jsvalue)
    (args : list jsvalue) (w : World) :
  console_output (fst (Common.updateWarningMap format args w)) =
  console_output w.
Proof.
  unfold Common.updateWarningMap.
  destruct (Common.warning format args) as [key|e]; simpl; [|reflexivity].
  rewrite emit_console_output. reflexivity.
Qed.

Lemma RootIndex_updateWarningMap_console_output
    (callback : jsvalue -> nat -> list jsvalue -> completion (option string))
    (format : jsvalue) (args : list jsvalue) (w : World) :
  console_output (fst (RootIndex.updateWarningMap callback format args w)) =
  console_output w.
Proof.
  unfold RootIndex.updateWarningMap.
  destruct (RootIndex.warning callback format args) as [key|e]; simpl;
    [|reflexivity].
  rewrite emit_console_output. reflexivity.
Qed.

Lemma is_warning_call_marked (arguments : list jsvalue) :
  Common.is_warning_call arguments = true <->
  exists rest,
    Array_get arguments 0 = VString ("Warning: " ++ rest)%string.
Proof.
  unfold Common.is_warning_call.
  destruct (Array_get arguments 0) as [| |b|n|s|d|o];
    try (split; [discriminate | intros [rest Hrest]; discriminate]).
  rewrite String_startsWith_prefix. split.
  - intros [rest ->]. exists rest. reflexivity.
  - intros [rest Hrest]. injection Hrest as ->. exists rest. reflexivity.
Qed.

End WrapperProofs.

(** C5, amended. Outside production the error wrapper always hands its
    arguments on to the host's [console.error], and then records them exactly
    when the first argument is a string that begins with ["Warning: "]; the
    warning wrapper records on every call, and hands its arguments on to the
    host's [console.warn] on every call in [index.js], but in
    [src/common.js] only where a global [window] exists. *)
Theorem C5_wrappers_forward_and_record `{H : Host} (env : Environment)
    (arguments : list jsvalue) (w : World) :
  production env = false ->
  (* console.error *)
  forwarded LevelError arguments w
    (fst (Common.console_error env arguments w))
  /\ ((exists rest,
          Array_get arguments 0 = VString ("Warning: " ++ rest)%string) ->
      Common.console_error env arguments w =
      Common.updateWarningMap (Array_get arguments 0) (tl arguments)
        (original LevelError arguments w))
  /\ (~ (exists rest,
            Array_get arguments 0 = VString ("Warning: " ++ rest)%string) ->
      Common.console_error env arguments w =
      (original LevelError arguments w, Normal tt))
  (* console.warn, src/common.js *)
  /\ Common.console_warn env arguments w =
     Common.updateWarningMap (Array_get arguments 0) (tl arguments)
       (if window_defined env then original LevelWarn arguments w else w)
  /\ (window_defined env = true ->
      forwarded LevelWarn arguments w
        (fst (Common.console_warn env arguments w)))
  /\ (window_defined env = false ->
      console_output (fst (Common.console_warn env arguments w)) =
      console_output w)
  (* console.warn and console.error, index.js *)
  /\ (forall callback,
         RootIndex.console_warn callback env arguments w =
         RootIndex.updateWarningMap callback (Array_get arguments 0)
           (tl arguments) (original LevelWarn arguments w)
         /\ forwarded LevelWarn arguments w
              (fst (RootIndex.console_warn callback env arguments w))
         /\ forwarded LevelError arguments w
              (fst (RootIndex.console_error callback env arguments w))).
Proof.
  intros Hdev.
  unfold forwarded, Common.console_error, Common.console_warn,
    RootIndex.console_warn, RootIndex.console_error.
  rewrite Hdev.
  unfold Common.error_wrapper, Common.warn_wrapper, RootIndex.error_wrapper,
    RootIndex.warn_wrapper, Common.updateWarningMap_apply,
    RootIndex.updateWarningMap_apply.
  repeat split.
  - destruct (Common.is_warning_call arguments); [|reflexivity].
    rewrite updateWarningMap_console_output. reflexivity.
  - intros Hmarked. apply is_warning_call_marked in Hmarked.
    rewrite Hmarked. reflexivity.
  - intros Hplain.
    destruct (Common.is_warning_call arguments) eqn:Hcall; [|reflexivity].
    apply is_warning_call_marked in Hcall. contradiction.
  - intros Hwindow. rewrite Hwindow, updateWarningMap_console_output.
    reflexivity.
  - intros Hwindow. rewrite Hwindow, updateWarningMap_console_output.
    reflexivity.
  - rewrite RootIndex_updateWarningMap_console_output. reflexivity.
  - destruct (Common.is_warning_call arguments); [|reflexivity].
    rewrite RootIndex_updateWarningMap_console_output. reflexivity.
Qed.

Lemma C5_witness :
  production Example.terminal = false
  /\ forwarded (H := Example.host) LevelError [VString "Warning: x"]
       initial_World
       (fst (Common.console_error Example.terminal [VString "Warning: x"]
               initial_World)).
Proof.
  split; [reflexivity|].
  apply (C5_wrappers_forward_and_record (H := Example.host) Example.terminal
           [VString "Warning: x"] initial_World).
  reflexivity.
Defined.

(** C5 as it was stated fails for [console.warn] in a terminal: the warning
    is recorded, and the host's logger is not called. *)
Lemma C5_counterexample :
  production Example.terminal = false
  /\ _warningMap
       (fst (Common.console_warn (H := Example.host) Example.terminal
               [VString "a"] initial_World)) = [("a"%string, 1%Z)]
  /\ ~ forwarded (H := Example.host) LevelWarn [VString "a"] initial_World
         (fst (Common.console_warn Example.terminal [VString "a"]
                 initial_World)).
Proof.
  split; [reflexivity|]. split; [reflexivity|].
  unfold forwarded. simpl. discriminate.
Qed.

(** C9. [isWarningIgnored] only returns a boolean, and it is [true] exactly
    when some element of the list that [console.ignoredYellowBox] holds at
    the call is, character for character, the beginning of the key. *)
Theorem C9_ignored_iff_prefix `{H : Host} (key : string)
    (prefixes : list string) (w : World) :
  (Common.isWarningIgnored key
     (with_ignoredYellowBox (ArrayOf prefixes) w) = true <->
   exists ignorePrefix,
     In ignorePrefix prefixes
     /\ exists rest, key = (ignorePrefix ++ rest)%string)
  /\ Common.isWarningIgnored "Warning: foo"
       (with_ignoredYellowBox (ArrayOf ["Warning: "%string]) w) = true
  /\ Common.isWarningIgnored "foo"
       (with_ignoredYellowBox (ArrayOf ["Warning: "%string]) w) = false
  /\ Common.isWarningIgnored "warning: foo"
       (with_ignoredYellowBox (ArrayOf ["Warning: "%string]) w) = false
  /\ Common.isWarningIgnored "Warning: foo"
       (with_ignoredYellowBox (ArrayOf ["W.*"%string; "^Warning"%string]) w)
     = false.
Proof.
  split; [|repeat split].
  unfold Common.isWarningIgnored, Array_some. simpl.
  rewrite existsb_exists. split.
  - intros [p [Hin Hstarts]]. exists p. split; [exact Hin|].
    apply String_startsWith_prefix. exact Hstarts.
  - intros [p [Hin Hrest]]. exists p. split; [exact Hin|].
    apply String_startsWith_prefix. exact Hrest.
Qed.

(** ** The schedule *)

Lemma pending_app (l : nat) (q1 q2 : list Task) :
  pending l (q1 ++ q2) = pending l q1 + pending l q2.
Proof. unfold pending. rewrite filter_app, length_app. reflexivity. Qed.

Lemma map_lid_subscribers (ls : list Listener) :
  map lid ls = map fst (subscribers ls).
Proof.
  unfold subscribers. rewrite map_map. reflexivity.
Qed.

Lemma subscribers_In (ls : list Listener) (l o : nat) :
  In (l, o) (subscribers ls) <->
  exists x, In x ls /\ lid x = l /\ owner x = o.
Proof.
  unfold subscribers. rewrite in_map_iff. split.
  - intros [x [Heq Hin]]. injection Heq as Hl Ho. exists x. auto.
  - intros [x [Hin [Hl Ho]]]. exists x. subst. auto.
Qed.

Lemma In_subscribers (ls : list Listener) (x : Listener) :
  In x ls -> In (lid x, owner x) (subscribers ls).
Proof. intros Hin. apply subscribers_In. exists x. auto. Qed.

Lemma unscheduled_cons (l : nat) (x : Listener) (ls : list Listener) :
  unscheduled l (x :: ls) =
  (if Nat.eqb (lid x) l
   then match scheduled x with Some _ => 0 | None => 1 end
   else 0) + unscheduled l ls.
Proof.
  unfold unscheduled. simpl.
  destruct (Nat.eqb (lid x) l); simpl; [|reflexivity].
  destruct (scheduled x); reflexivity.
Qed.

Lemma unscheduled_stranger (l : nat) (ls : list Listener) :
  ~ In l (map lid ls) -> unscheduled l ls = 0.
Proof.
  induction ls as [|x ls IH]; [reflexivity|].
  intros Hnotin. rewrite unscheduled_cons.
  destruct (Nat.eqb (lid x) l) eqn:Hx.
  - apply Nat.eqb_eq in Hx. exfalso. apply Hnotin. left. exact Hx.
  - simpl. apply IH. intros Hin. apply Hnotin. right. exact Hin.
Qed.

Lemma unscheduled_member (ls : list Listener) (x : Listener) :
  NoDup (map lid ls) -> In x ls ->
  unscheduled (lid x) ls = match scheduled x with Some _ => 0 | None => 1 end.
Proof.
  induction ls as [|y ls IH]; [intros _ []|].
  intros Hnd Hin. simpl in Hnd.
  inversion Hnd as [|i is_ Hnotin Hnd']; subst.
  rewrite unscheduled_cons. destruct Hin as [-> | Hin].
  - rewrite Nat.eqb_refl, (unscheduled_stranger _ _ Hnotin). lia.
  - destruct (Nat.eqb (lid y) (lid x)) eqn:Hy.
    + apply Nat.eqb_eq in Hy. exfalso. apply Hnotin. rewrite Hy.
      apply in_map. exact Hin.
    + simpl. apply (IH Hnd' Hin).
Qed.

Lemma settle_unschedule (t : Task) (queue : list Task) (l : Listener) :
  settle queue (unschedule (closure t) l) = settle (t :: queue) l.
Proof.
  unfold settle, unschedule. simpl.
  destruct (Nat.eqb (lid l) (closure t)) eqn:Hl; simpl.
  - destruct (existsb _ queue); reflexivity.
  - reflexivity.
Qed.

Lemma settle_idle (queue : list Task) (l : Listener) :
  existsb (fun t => Nat.eqb (lid l) (closure t)) queue = false ->
  pending (lid l) queue = 0.
Proof.
  unfold pending. induction queue as [|t queue IH]; simpl; [reflexivity|].
  intros Hno. apply orb_false_iff in Hno. destruct Hno as [Ht Hq].
  rewrite Nat.eqb_sym, Ht. apply IH. exact Hq.
Qed.

Lemma received_notify (l o : nat) (m : WarningMap) (queue : list Task) :
  pending l queue = 1 ->
  (forall t, In t queue -> closure t = l -> this_ t = o) ->
  received l (map (notify m) queue) =
  [{| to_listener := l; to_component := o; contents := m |}].
Proof.
  unfold pending, received.
  induction queue as [|t queue IH]; simpl; [discriminate|].
  intros Hone Hown. destruct (Nat.eqb (closure t) l) eqn:Ht.
  - apply Nat.eqb_eq in Ht. simpl in Hone.
    assert (Hrest : filter (fun n => Nat.eqb (to_listener n) l)
                      (map (notify m) queue) = []).
    { injection Hone as Hzero. clear IH Hown.
      induction queue as [|u queue IHq]; simpl in *; [reflexivity|].
      destruct (Nat.eqb (closure u) l); [discriminate|].
      apply IHq. exact Hzero. }
    rewrite Hrest. unfold notify at 1.
    rewrite (Hown t (or_introl eq_refl) Ht), Ht. reflexivity.
  - apply IH; [exact Hone|].
    intros u Hu. apply Hown. right. exact Hu.
Qed.

Section ScheduleProofs.
Context `{H : Host}.

(** One [emit]: every listener ends up scheduled, and only those that were
    not get a callback queued. *)
Lemma emit_to_spec (ls : list Listener) :
  forall (queue : list Task) (next : Immediate),
    subscribers (fst (fst (emit_to ls queue next))) = subscribers ls
    /\ (forall x, In x (fst (fst (emit_to ls queue next))) ->
          scheduled x <> None)
    /\ (forall l, pending l (snd (fst (emit_to ls queue next))) =
                  pending l queue + unscheduled l ls)
    /\ (forall t, In t (snd (fst (emit_to ls queue next))) ->
          In t queue \/ In (closure t, this_ t) (subscribers ls)).
Proof.
  induction ls as [|x ls IH]; intros queue next.
  - simpl. repeat split.
    + intros y [].
    + intros l. unfold unscheduled. simpl. lia.
    + intros t Ht. left. exact Ht.
  - cbn [emit_to]. unfold listener_call, setImmediate.
    destruct (scheduled x) as [h|] eqn:Hx.
    + specialize (IH queue next).
      destruct (emit_to ls queue next) as [[ls' q'] n']. simpl in *.
      destruct IH as [Hsub [Hsched [Hpend Htasks]]].
      repeat split.
      * rewrite Hsub. reflexivity.
      * intros y [<- | Hy]; [rewrite Hx; discriminate | exact (Hsched y Hy)].
      * intros l. rewrite Hpend, unscheduled_cons, Hx.
        destruct (Nat.eqb (lid x) l); reflexivity.
      * intros t Ht. destruct (Htasks t Ht) as [Hq | Hs];
          [left; exact Hq | right; right; exact Hs].
    + match goal with
      | |- context [emit_to ls ?q ?n] =>
          specialize (IH q n); destruct (emit_to ls q n) as [[ls' q'] n']
      end.
      simpl in *. destruct IH as [Hsub [Hsched [Hpend Htasks]]].
      repeat split.
      * rewrite Hsub. reflexivity.
      * intros y [<- | Hy]; [simpl; discriminate | exact (Hsched y Hy)].
      * intros l. rewrite Hpend, pending_app, unscheduled_cons, Hx.
        unfold pending at 2. simpl.
        destruct (Nat.eqb (lid x) l); simpl; lia.
      * intros t Ht. destruct (Htasks t Ht) as [Hq | Hs].
        -- apply in_app_or in Hq. destruct Hq as [Hq | [<- | []]].
           ++ left. exact Hq.
           ++ right. left. reflexivity.
        -- right. right. exact Hs.
Qed.

Lemma emit_sound (w : World) :
  sound_schedule w ->
  sound_schedule (EventEmitter_emit w)
  /\ subscribers (_warningEmitter (EventEmitter_emit w)) =
     subscribers (_warningEmitter w)
  /\ (forall x, In x (_warningEmitter (EventEmitter_emit w)) ->
        scheduled x <> None).
Proof.
  intros [Hnd [Hlt [Hpend Htasks]]].
  pose proof (emit_to_spec (_warningEmitter w) (immediates w)
                (nextImmediate w)) as Hspec.
  unfold EventEmitter_emit, sound_schedule.
  destruct (emit_to _ _ _) as [[ls' q'] n']. simpl in *.
  destruct Hspec as [Hsub [Hsched [Hpend' Htasks']]].
  assert (Hback : forall x, In x ls' ->
            exists y, In y (_warningEmitter w) /\ lid y = lid x
                      /\ owner y = owner x).
  { intros x Hx. apply subscribers_In. rewrite <- Hsub.
    apply In_subscribers. exact Hx. }
  split; [|split; [exact Hsub | exact Hsched]].
  repeat split.
  - rewrite map_lid_subscribers, Hsub, <- map_lid_subscribers. exact Hnd.
  - intros x Hx. destruct (Hback x Hx) as [y [Hy [Hl _]]].
    rewrite <- Hl. apply Hlt. exact Hy.
  - intros x Hx. destruct (Hback x Hx) as [y [Hy [Hl _]]].
    rewrite Hpend', <- Hl, (Hpend y Hy), (unscheduled_member _ _ Hnd Hy).
    specialize (Hsched x Hx).
    destruct (scheduled x); [|contradiction].
    destruct (scheduled y); reflexivity.
  - intros t Ht. rewrite Hsub. destruct (Htasks' t Ht) as [Hq | Hs].
    + apply Htasks. exact Hq.
    + exact Hs.
Qed.

Lemma updateWarningMap_sound (format : jsvalue) (args : list jsvalue)
    (w : World) :
  sound_schedule w ->
  let w' := fst (Common.updateWarningMap format args w) in
  sound_schedule w'
  /\ subscribers (_warningEmitter w') = subscribers (_warningEmitter w)
  /\ notifications w' = notifications w
  /\ (is_normal (Common.warning format args) \/
      (forall x, In x (_warningEmitter w) -> scheduled x <> None) ->
      forall x, In x (_warningEmitter w') -> scheduled x <> None).
Proof.
  intros Hw. unfold Common.updateWarningMap.
  destruct (Common.warning format args) as [key|e]; simpl.
  - set (w1 := with_warningMap _ w).
    assert (Hw1 : sound_schedule w1) by exact Hw.
    destruct (emit_sound w1 Hw1) as [Hs [Hsub Hsched]].
    split; [exact Hs|]. split; [exact Hsub|].
    split; [rewrite emit_notifications; reflexivity|].
    intros _. exact Hsched.
  - split; [exact Hw|]. split; [reflexivity|]. split; [reflexivity|].
    intros [Hn | Hall]; [|exact Hall].
    exfalso. exact (not_normal_Throw _ e Hn).
Qed.

Lemma record_block_sound (calls : list (jsvalue * list jsvalue)) :
  forall w : World,
    sound_schedule w ->
    let w' := record_block calls w in
    sound_schedule w'
    /\ subscribers (_warningEmitter w') = subscribers (_warningEmitter w)
    /\ notifications w' = notifications w
    /\ (Exists (fun call => is_normal
                              (Common.warning (fst call) (snd call))) calls
        \/ (forall x, In x (_warningEmitter w) -> scheduled x <> None) ->
        forall x, In x (_warningEmitter w') -> scheduled x <> None).
Proof.
  induction calls as [|call calls IH]; intros w Hw.
  - simpl. split; [exact Hw|]. split; [reflexivity|].
    split; [reflexivity|].
    intros [Hex | Hall]; [inversion Hex | exact Hall].
  - cbn [record_block fold_left].
    change (fold_left _ calls ?w0) with (record_block calls w0).
    destruct (updateWarningMap_sound (fst call) (snd call) w Hw)
      as [Hs1 [Hsub1 [Hnot1 Hsched1]]].
    destruct (IH _ Hs1) as [Hs2 [Hsub2 [Hnot2 Hsched2]]].
    split; [|split; [|split]].
    + exact Hs2.
    + rewrite Hsub2. exact Hsub1.
    + rewrite Hnot2. exact Hnot1.
    + intros Hhyp. apply Hsched2.
      destruct Hhyp as [Hex | Hall].
      * inversion Hex as [c cs Hhere | c cs Hlater]; subst.
        -- right. apply Hsched1. left. exact Hhere.
        -- left. exact Hlater.
      * right. apply Hsched1. right. exact Hall.
Qed.

(** The callbacks of a queue: what they do to the listeners and what they
    tell. *)
Lemma callbacks_spec (queue : list Task) :
  forall w0 : World,
    let w' := fold_left immediate_callback queue w0 in
    _warningEmitter w' = map (settle queue) (_warningEmitter w0)
    /\ notifications w' =
       notifications w0 ++ map (notify (_warningMap w0)) queue
    /\ immediates w' = immediates w0
    /\ nextListener w' = nextListener w0.
Proof.
  induction queue as [|t queue IH]; intros w0.
  - simpl. repeat split.
    + unfold settle. simpl. rewrite map_id. reflexivity.
    + rewrite app_nil_r. reflexivity.
  - cbn [fold_left]. destruct (IH (immediate_callback w0 t))
      as [Hls [Hns [Hq Hn]]].
    repeat split.
    + rewrite Hls. simpl. rewrite map_map.
      apply map_ext. intros l. apply settle_unschedule.
    + rewrite Hns. simpl. rewrite <- app_assoc. reflexivity.
    + rewrite Hq. reflexivity.
    + rewrite Hn. reflexivity.
Qed.

Lemma subscribers_settle (queue : list Task) (ls : list Listener) :
  subscribers (map (settle queue) ls) = subscribers ls.
Proof.
  unfold subscribers. rewrite map_map. apply map_ext.
  intros l. unfold settle. destruct (existsb _ queue); reflexivity.
Qed.

Lemma run_immediates_sound (w : World) :
  sound_schedule w -> sound_schedule (run_immediates w).
Proof.
  intros [Hnd [Hlt [Hpend Htasks]]].
  unfold run_immediates.
  destruct (callbacks_spec (immediates w)
              {| _warningMap := _warningMap w;
                 _warningEmitter := _warningEmitter w;
                 nextListener := nextListener w;
                 immediates := [];
                 nextImmediate := nextImmediate w;
                 console_output := console_output w;
                 notifications := notifications w;
                 ignoredYellowBox := ignoredYellowBox w |})
    as [Hls [_ [Hq Hn]]].
  simpl in Hls, Hq, Hn. unfold sound_schedule.
  rewrite Hls, Hq, Hn. repeat split.
  - rewrite map_lid_subscribers, subscribers_settle,
      <- map_lid_subscribers. exact Hnd.
  - intros x Hx. apply in_map_iff in Hx. destruct Hx as [y [<- Hy]].
    specialize (Hlt y Hy). unfold settle.
    destruct (existsb _ (immediates w)); exact Hlt.
  - intros x Hx. apply in_map_iff in Hx. destruct Hx as [y [<- Hy]].
    unfold settle.
    destruct (existsb _ (immediates w)) eqn:Hex; [reflexivity|].
    apply settle_idle in Hex. rewrite (Hpend y Hy) in Hex.
    destruct (scheduled y); [discriminate | reflexivity].
  - intros t [].
Qed.

Lemma addListener_sound (this : nat) (w : World) :
  sound_schedule w -> sound_schedule (snd (EventEmitter_addListener this w)).
Proof.
  intros [Hnd [Hlt [Hpend Htasks]]].
  unfold EventEmitter_addListener, sound_schedule. simpl.
  assert (Hnew : pending (nextListener w) (immediates w) = 0).
  { unfold pending.
    destruct (filter _ (immediates w)) as [|t q] eqn:Hf; [reflexivity|].
    assert (Ht : In t (filter (fun t0 => Nat.eqb (closure t0) (nextListener w))
                         (immediates w))) by (rewrite Hf; left; reflexivity).
    apply filter_In in Ht. destruct Ht as [Ht Heq].
    apply Nat.eqb_eq in Heq. apply Htasks in Ht.
    apply subscribers_In in Ht. destruct Ht as [x [Hx [Hl _]]].
    specialize (Hlt x Hx). lia. }
  repeat split.
  - rewrite map_app. simpl. apply NoDup_app.
    + exact Hnd.
    + repeat constructor. intros [].
    + intros l Hl [<- | []].
      apply in_map_iff in Hl. destruct Hl as [x [Heq Hx]].
      specialize (Hlt x Hx). lia.
  - intros l Hl. apply in_app_or in Hl. destruct Hl as [Hl | [<- | []]].
    + specialize (Hlt l Hl). lia.
    + simpl. lia.
  - intros l Hl. apply in_app_or in Hl. destruct Hl as [Hl | [<- | []]].
    + apply Hpend. exact Hl.
    + simpl. exact Hnew.
  - intros t Ht. unfold subscribers. rewrite map_app. apply in_or_app.
    left. apply Htasks. exact Ht.
Qed.

End ScheduleProofs.

Lemma NoDup_lid_same (ls : list Listener) (x y : Listener) :
  NoDup (map lid ls) -> In x ls -> In y ls -> lid x = lid y -> x = y.
Proof.
  induction ls as [|z ls IH]; simpl; [intros _ []|].
  intros Hnd Hx Hy Heq. inversion Hnd as [|i is_ Hnotin Hnd']; subst.
  destruct Hx as [-> | Hx]; destruct Hy as [-> | Hy].
  - reflexivity.
  - exfalso. apply Hnotin. rewrite Heq. apply in_map. exact Hy.
  - exfalso. apply Hnotin. rewrite <- Heq. apply in_map. exact Hx.
  - apply (IH Hnd' Hx Hy Heq).
Qed.

Section RunSchedule.
Context `{H : Host}.
Variable env : Environment.

Lemma initial_sound : sound_schedule initial_World.
Proof.
  unfold sound_schedule. simpl. repeat split.
  - constructor.
  - intros l [].
  - intros l [].
  - intros t [].
Qed.

Lemma perform_sound (w : World) (op : Operation) :
  sound_schedule w -> sound_schedule (perform env w op).
Proof.
  intros Hw.
  destruct op as [arguments|arguments|format args|warning_ this|this|this|i|];
    simpl.
  - unfold Common.console_error, Common.error_wrapper.
    destruct (production env); [exact Hw|].
    destruct (Common.is_warning_call arguments); [|exact Hw].
    apply updateWarningMap_sound. exact Hw.
  - unfold Common.console_warn, Common.warn_wrapper.
    destruct (production env); [exact Hw|].
    apply updateWarningMap_sound.
    destruct (window_defined env); exact Hw.
  - apply updateWarningMap_sound. exact Hw.
  - exact Hw.
  - apply (addListener_sound (instance this) w Hw).
  - unfold Index.componentWillUnmount.
    destruct (_listener this) as [[]|]; exact Hw.
  - exact Hw.
  - apply run_immediates_sound. exact Hw.
Qed.

Lemma run_sound (ops : list Operation) :
  forall w : World, sound_schedule w -> sound_schedule (run env ops w).
Proof.
  induction ops as [|op ops IH]; intros w Hw; simpl; [exact Hw|].
  apply IH. apply perform_sound. exact Hw.
Qed.

End RunSchedule.

(** C7. Whatever ran before, a block of [record] calls of which at least one
    goes through tells no subscriber anything while it runs, leaves exactly
    one callback of each subscriber in the immediate queue, and on the next
    turn of the event loop each subscriber is told exactly once, with the map
    as the block left it. *)
Theorem C7_one_deferred_notification `{H : Host} (env : Environment)
    (ops : list Operation) (calls : list (jsvalue * list jsvalue))
    (l o : nat) :
  let w := run env ops initial_World in
  subscribed l o w ->
  Exists (fun call => is_normal (Common.warning (fst call) (snd call)))
    calls ->
  let w' := record_block calls w in
  notifications w' = notifications w
  /\ pending l (immediates w') = 1
  /\ received l (notifications (run_immediates w')) =
     received l (notifications w) ++
     [{| to_listener := l; to_component := o; contents := _warningMap w' |}].
Proof.
  intros w Hsub Hcalls w'.
  assert (Hw : sound_schedule w) by (apply run_sound, initial_sound).
  destruct (record_block_sound calls w Hw) as [Hw' [Hsubs [Hnot Hsched]]].
  fold w' in Hw', Hsubs, Hnot, Hsched.
  specialize (Hsched (or_introl Hcalls)).
  unfold subscribed in Hsub. rewrite <- Hsubs in Hsub.
  apply subscribers_In in Hsub. destruct Hsub as [x [Hx [Hl Ho]]].
  destruct Hw' as [Hnd [Hlt [Hpend Htasks]]].
  assert (Hone : pending l (immediates w') = 1).
  { rewrite <- Hl, (Hpend x Hx). specialize (Hsched x Hx).
    destruct (scheduled x); [reflexivity | contradiction]. }
  split; [exact Hnot|]. split; [exact Hone|].
  unfold run_immediates.
  destruct (callbacks_spec (immediates w')
              {| _warningMap := _warningMap w';
                 _warningEmitter := _warningEmitter w';
                 nextListener := nextListener w';
                 immediates := [];
                 nextImmediate := nextImmediate w';
                 console_output := console_output w';
                 notifications := notifications w';
                 ignoredYellowBox := ignoredYellowBox w' |})
    as [_ [Hns _]].
  rewrite Hns. simpl. unfold received at 1. rewrite filter_app.
  fold (received l (notifications w')).
  fold (received l (map (notify (_warningMap w')) (immediates w'))).
  rewrite Hnot. f_equal.
  apply received_notify; [exact Hone|].
  intros t Ht Hc. specialize (Htasks t Ht).
  apply subscribers_In in Htasks. destruct Htasks as [y [Hy [Hyl Hyo]]].
  assert (Hxy : x = y).
  { apply (NoDup_lid_same _ x y Hnd Hx Hy). rewrite Hl, Hyl, Hc.
    reflexivity. }
  subst y. rewrite <- Hyo. exact Ho.
Qed.

Lemma C7_witness :
  subscribed (H := Example.host) 0 0
    (run Example.development [Call_componentDidMount Example.box]
       initial_World)
  /\ pending 0
       (immediates
          (record_block (H := Example.host)
             [(VString "a", []); (VString "b", []); (VString "a", [])]
             (run Example.development [Call_componentDidMount Example.box]
                initial_World))) = 1.
Proof.
  assert (Hsub : subscribed (H := Example.host) 0 0
                   (run Example.development
                      [Call_componentDidMount Example.box] initial_World)).
  { left. reflexivity. }
  split; [exact Hsub|].
  apply (C7_one_deferred_notification (H := Example.host)
           Example.development [Call_componentDidMount Example.box]
           [(VString "a", []); (VString "b", []); (VString "a", [])] 0 0).
  - exact Hsub.
  - left. exists "a"%string. reflexivity.
Defined.

(** ** Unmounting *)

(** C6, on the code: [componentWillUnmount] changes nothing in the world, in
    [src/index.js] by returning, in [index.js] by throwing; the listener of a
    component that was mounted and unmounted is still called, and the
    component is still told. *)
Theorem C6_unmount_keeps_listener `{H : Host} (env : Environment)
    (this : YellowBox) (w : World) :
  let mounted := fst (Index.componentDidMount this w) in
  let w1 := snd (Index.componentDidMount this w) in
  subscribed (nextListener w) (instance this) w1
  /\ Index.componentWillUnmount mounted w1 = (w1, Normal tt)
  /\ RootIndex.componentWillUnmount mounted w1 = (w1, Throw TypeError)
  /\ received 0
       (notifications
          (run env
             [Call_componentDidMount (new_YellowBox 0);
              Call_componentWillUnmount
                (fst (Index.componentDidMount (new_YellowBox 0)
                        initial_World));
              Call_updateWarningMap (VString "a") [];
              Turn]
             initial_World))
     = [{| to_listener := 0; to_component := 0;
           contents := [("a"%string, 1%Z)] |}].
Proof.
  intros mounted w1. split; [|split; [|split]].
  - unfold subscribed, w1, subscribers. simpl.
    rewrite map_app. apply in_or_app. right. left. reflexivity.
  - reflexivity.
  - reflexivity.
  - reflexivity.
Qed.

(** ** When the key can be built *)

Section CompletionProofs.
Context `{H : Host}.

Lemma mapM_is_normal (A B : Type) (f : A -> completion B) (l : list A) :
  is_normal (mapM f l) <-> forall a, In a l -> is_normal (f a).
Proof.
  induction l as [|a l IH]; simpl.
  - split; [intros _ a [] | intros _; apply is_normal_Normal].
  - rewrite is_normal_bind. split.
    + intros [b [Hb Hrest]]. apply is_normal_bind in Hrest.
      destruct Hrest as [bs [Hbs _]].
      intros a' [<- | Hin].
      * exists b. exact Hb.
      * apply IH; [exists bs; exact Hbs | exact Hin].
    + intros Hall. destruct (Hall a (or_introl eq_refl)) as [b Hb].
      exists b. split; [exact Hb|].
      apply is_normal_bind.
      assert (Hl : is_normal (mapM f l)).
      { apply IH. intros a' Hin. apply Hall. right. exact Hin. }
      destruct Hl as [bs Hbs]. exists bs.
      split; [exact Hbs | apply is_normal_Normal].
Qed.

Lemma replace_is_normal (format : string) (args : list jsvalue) :
  forall i : nat,
    is_normal (String_replace_pct_s format
                 (fun _match index => (Array_get args index, S index)) i)
    <->
    forall j, i <= j < i + List.length (String_match_pct_s format) ->
              is_normal (ToString (Array_get args j)).
Proof.
  induction format as [|rest IH|c rest Hmiss IH] using scan_ind; intros i.
  - simpl. split; [intros _ j Hj; lia | intros _; apply is_normal_Normal].
  - rewrite String_replace_pct_s_cons, String_match_pct_s_cons.
    cbn [after_placeholder List.length]. rewrite is_normal_bind. split.
    + intros [r [Hr Hrest]]. apply is_normal_bind in Hrest.
      destruct Hrest as [t [Ht _]].
      assert (Hlater : is_normal
                (String_replace_pct_s rest
                   (fun _ index => (Array_get args index, S index)) (S i)))
        by (exists t; exact Ht).
      rewrite IH in Hlater. intros j Hj.
      destruct (Nat.eq_dec j i) as [-> | Hne].
      * exists r. exact Hr.
      * apply Hlater. lia.
    + intros Hall. destruct (Hall i) as [r Hr]; [lia|].
      exists r. split; [exact Hr|]. apply is_normal_bind.
      assert (Hlater : is_normal
                (String_replace_pct_s rest
                   (fun _ index => (Array_get args index, S index)) (S i))).
      { apply IH. intros j Hj. apply Hall. lia. }
      destruct Hlater as [t Ht]. exists t.
      split; [exact Ht | apply is_normal_Normal].
  - rewrite String_replace_pct_s_cons, String_match_pct_s_cons, Hmiss.
    rewrite is_normal_bind, <- IH. split.
    + intros [t [Ht _]]. exists t. exact Ht.
    + intros [t Ht]. exists t. split; [exact Ht | apply is_normal_Normal].
Qed.

Lemma warning_is_normal (format : jsvalue) (args : list jsvalue) :
  is_normal (Common.warning format args) <->
  exists format',
    String_ format = Normal format'
    /\ (forall i, i < List.length (String_match_pct_s format') ->
                  is_normal (ToString (Array_get args i)))
    /\ (forall arg,
           In arg (Array_slice_from args
                     (List.length (String_match_pct_s format'))) ->
           is_normal (stringifySafe arg)).
Proof.
  unfold Common.warning. rewrite is_normal_bind.
  split; intros [f [Hf Hrest]]; exists f; (split; [exact Hf|]).
  - apply is_normal_bind in Hrest. destruct Hrest as [t [Ht Hrest]].
    apply is_normal_bind in Hrest. destruct Hrest as [xs [Hxs _]].
    split.
    + assert (Hs : is_normal
                (Common.sprintf f
                   (Array_slice_to args
                      (List.length (String_match_pct_s f)))))
        by (exists t; exact Ht).
      unfold Common.sprintf in Hs. rewrite replace_is_normal in Hs.
      intros i Hi. specialize (Hs i (conj (Nat.le_0_l i) Hi)).
      unfold Array_get, Array_slice_to in Hs.
      rewrite nth_firstn_lt in Hs by exact Hi. exact Hs.
    + unfold Array_map in Hxs. rewrite Array_map_from_ignoring in Hxs.
      apply mapM_is_normal. exists xs. exact Hxs.
  - destruct Hrest as [Hlead Htrail].
    assert (Hs : is_normal
              (Common.sprintf f
                 (Array_slice_to args
                    (List.length (String_match_pct_s f))))).
    { unfold Common.sprintf. apply replace_is_normal. intros i [_ Hi].
      unfold Array_get, Array_slice_to.
      rewrite nth_firstn_lt by exact Hi. apply Hlead. exact Hi. }
    destruct Hs as [t Ht]. apply is_normal_bind. exists t.
    split; [exact Ht|]. apply is_normal_bind.
    unfold Array_map. rewrite Array_map_from_ignoring.
    apply mapM_is_normal in Htrail. destruct Htrail as [xs Hxs].
    exists xs. split; [exact Hxs | apply is_normal_Normal].
Qed.

End CompletionProofs.




(** The same call with the symbol after the placeholders goes through, and a
    trailing argument whose serialization throws makes the call throw. *)
Example trailing_arguments :
  Common.warning (H := Example.host) (VString "seen") [VSymbol "id"]
  = Normal "seen "%string
  /\ Common.warning (H := Example.host) (VString "seen") [Example.faulty]
     = Throw (Uncaught "Error: no").
Proof. split; reflexivity. Qed.

(** * Further properties of the code *)

(** ** Formats and keys *)

Lemma string_append_nil_r (s : string) : (s ++ "")%string = s.
Proof. induction s as [|c s IH]; simpl; [reflexivity | now rewrite IH]. Qed.

Lemma Array_join_head (sep first : string) (rest : list (option string)) :
  exists tail_, Array_join sep (Some first :: rest) = (first ++ tail_)%string.
Proof.
  destruct rest as [|x rest].
  - exists ""%string. simpl. rewrite string_append_nil_r. reflexivity.
  - exists (sep ++ Array_join sep (x :: rest))%string. reflexivity.
Qed.

Lemma after_placeholder_percent (c : ascii) (rest : string) :
  Ascii.eqb c "%" = false -> after_placeholder c rest = None.
Proof.
  intros Hc. destruct (after_placeholder c rest) as [r|] eqn:Hap;
    [|reflexivity].
  apply after_placeholder_Some in Hap. destruct Hap as [-> _].
  discriminate Hc.
Qed.

Section FormatProofs.
Context `{H : Host}.

Lemma replace_without_placeholder (S : Type) (format : string)
    (replaceValue : string -> S -> jsvalue * S) :
  String_match_pct_s format = [] ->
  forall captured : S,
    String_replace_pct_s format replaceValue captured = Normal format.
Proof.
  induction format as [|rest IH|c rest Hmiss IH] using scan_ind;
    intros Hnone captured.
  - reflexivity.
  - rewrite String_match_pct_s_cons in Hnone. discriminate Hnone.
  - rewrite String_match_pct_s_cons, Hmiss in Hnone.
    rewrite String_replace_pct_s_cons, Hmiss, (IH Hnone). reflexivity.
Qed.

(** A prefix without [%] comes out of the replacement as it went in. *)
Lemma replace_percent_free_prefix (S : Type) (prefix_ : string)
    (replaceValue : string -> S -> jsvalue * S) :
  percent_free prefix_ = true ->
  forall (format : string) (captured : S),
    String_replace_pct_s (prefix_ ++ format) replaceValue captured =
    (t <- String_replace_pct_s format replaceValue captured ;;
     Normal (prefix_ ++ t)%string).
Proof.
  induction prefix_ as [|c prefix_ IH]; intros Hfree format captured.
  - simpl. destruct (String_replace_pct_s format replaceValue captured);
      reflexivity.
  - simpl in Hfree. apply andb_true_iff in Hfree.
    destruct Hfree as [Hc Hfree]. apply negb_true_iff in Hc.
    change (String c prefix_ ++ format)%string
      with (String c (prefix_ ++ format)).
    rewrite String_replace_pct_s_cons,
      (after_placeholder_percent c _ Hc), (IH Hfree).
    destruct (String_replace_pct_s format replaceValue captured);
      reflexivity.
Qed.

Lemma plain_format_key (format : string) :
  String_match_pct_s format = [] ->
  Common.warning (VString format) [] = Normal format.
Proof.
  intros Hnone. unfold Common.warning. simpl. rewrite Hnone. simpl.
  unfold Common.sprintf.
  rewrite (replace_without_placeholder _ _ _ Hnone). reflexivity.
Qed.

End FormatProofs.

(** X1. A format without [%s] passes through [sprintf] unchanged, whatever
    arguments come with it; [record] of such a string alone files it under
    itself, and with arguments every one of them is serialized and
    appended. *)
Theorem X1_plain_format `{H : Host} (format : string)
    (args : list jsvalue) :
  String_match_pct_s format = [] ->
  Common.sprintf format args = Normal format
  /\ Common.warning (VString format) [] = Normal format
  /\ Common.warning (VString format) args = append_serialized format args.
Proof.
  intros Hnone. split; [|split].
  - apply replace_without_placeholder. exact Hnone.
  - apply plain_format_key. exact Hnone.
  - rewrite warning_canonical. unfold canonical_key. simpl.
    pose proof (sprintf_substitute format args 0 0) as Hs.
    rewrite Hnone in Hs. specialize (Hs eq_refl). simpl in Hs.
    rewrite Hs, (replace_without_placeholder _ _ _ Hnone). reflexivity.
Qed.

Lemma X1_witness :
  String_match_pct_s "100% sure" = []
  /\ Common.sprintf (H := Example.host) "100% sure" [VNumber 7%Z]
     = Normal "100% sure"%string.
Proof.
  split; [reflexivity|].
  apply (X1_plain_format (H := Example.host) "100% sure" [VNumber 7%Z]).
  reflexivity.
Defined.

(** X2. Text put in for a placeholder is not scanned again:
    [record("%s", s)] files [s] under [s] itself, even when [s] contains
    [%s].  When [s] has no placeholder, [record(s)] has the same key, and the
    two calls, in this order from a map without [s], share one entry counted
    twice. *)
Theorem X2_substituted_text_is_final `{H : Host} (s : string) (w : World) :
  Common.warning (VString "%s") [VString s] = Normal s
  /\ (String_match_pct_s s = [] ->
      Map_has s (_warningMap w) = false ->
      _warningMap
        (record_block [(VString "%s", [VString s]); (VString s, [])] w)
      = _warningMap w ++ [(s, 2%Z)]).
Proof.
  assert (Hfirst : Common.warning (VString "%s") [VString s] = Normal s).
  { unfold Common.warning. simpl. rewrite string_append_nil_r.
    reflexivity. }
  split; [exact Hfirst|].
  intros Hnone Habsent.
  assert (Hsecond : Common.warning (VString s) [] = Normal s)
    by (apply plain_format_key; exact Hnone).
  unfold record_block. cbn [fold_left fst snd].
  set (w1 := fst (Common.updateWarningMap (VString "%s") [VString s] w)).
  assert (Hw1 : _warningMap w1 = _warningMap w ++ [(s, 1%Z)]).
  { unfold w1. rewrite updateWarningMap_warningMap, Hfirst.
    rewrite (count_of_absent s _ Habsent), (Map_set_absent s _ _ Habsent).
    reflexivity. }
  rewrite updateWarningMap_warningMap.
  match goal with
  | |- context [Common.warning ?f ?a] =>
      replace (Common.warning f a) with (@Normal string s)
        by (symmetry; exact Hsecond)
  end.
  rewrite Hw1.
  rewrite (count_of_at s 1 (_warningMap w) [] Habsent),
    (Map_set_at s 1 _ (_warningMap w) [] Habsent).
  reflexivity.
Qed.

Lemma X2_witness :
  String_match_pct_s "disk full" = []
  /\ _warningMap
       (record_block (H := Example.host)
          [(VString "%s", [VString "disk full"]); (VString "disk full", [])]
          initial_World)
     = [("disk full"%string, 2%Z)].
Proof.
  split; [reflexivity|].
  apply (X2_substituted_text_is_final (H := Example.host) "disk full"
           initial_World); reflexivity.
Defined.

Section MarkerProofs.
Context `{H : Host}.

Lemma marked_key (arguments : list jsvalue) (key : string) :
  Common.is_warning_call arguments = true ->
  Common.warning (Array_get arguments 0) (tl arguments) = Normal key ->
  exists rest, key = ("Warning: " ++ rest)%string.
Proof.
  intros Hcall Hkey. apply is_warning_call_marked in Hcall.
  destruct Hcall as [r0 Hr0]. rewrite Hr0 in Hkey.
  unfold Common.warning in Hkey. cbn [String_ ToString bind] in Hkey.
  cbv zeta in Hkey. apply bind_Normal in Hkey.
  destruct Hkey as [formatted [Hformatted Hkey]].
  apply bind_Normal in Hkey. destruct Hkey as [xs [_ Hkey]].
  injection Hkey as <-.
  unfold Common.sprintf in Hformatted.
  rewrite (replace_percent_free_prefix _ "Warning: " _ eq_refl r0 0)
    in Hformatted.
  apply bind_Normal in Hformatted.
  destruct Hformatted as [t [_ Hformatted]]. injection Hformatted as <-.
  destruct (Array_join_head " " ("Warning: " ++ t) xs) as [tail_ Htail].
  exists (t ++ tail_)%string.
  etransitivity; [exact Htail | apply string_append_assoc].
Qed.

Lemma error_calls_marked (env : Environment) (calls : list (list jsvalue)) :
  forall w : World,
    (forall key c, In (key, c) (_warningMap w) ->
                   exists rest, key = ("Warning: " ++ rest)%string) ->
    forall key c,
      In (key, c) (_warningMap (run env (map Call_console_error calls) w)) ->
      exists rest, key = ("Warning: " ++ rest)%string.
Proof.
  induction calls as [|arguments calls IH]; intros w Hw; [exact Hw|].
  cbn [map run fold_left]. apply IH. clear IH.
  cbn [perform]. unfold Common.console_error, Common.error_wrapper.
  destruct (production env); [exact Hw|].
  destruct (Common.is_warning_call arguments) eqn:Hcall; [|exact Hw].
  unfold Common.updateWarningMap_apply.
  intros key c Hin. rewrite updateWarningMap_warningMap in Hin.
  destruct (Common.warning (Array_get arguments 0) (tl arguments))
    as [key'|e] eqn:Hkey; [|exact (Hw key c Hin)].
  apply Map_set_entries in Hin. destruct Hin as [Hin | Heq].
  - exact (Hw key c Hin).
  - injection Heq as -> _. exact (marked_key arguments key' Hcall Hkey).
Qed.

End MarkerProofs.

(** X3. Whatever is recorded through [console.error] is filed under a key
    that begins with ["Warning: "]: substitution does not touch the marker.
    So listing ["Warning: "] in [console.ignoredYellowBox] hides every
    warning that came in through [console.error]. *)
Theorem X3_error_keys_keep_marker `{H : Host} (env : Environment)
    (calls : list (list jsvalue)) (key : string) (c : Z) :
  In (key, c)
    (_warningMap (run env (map Call_console_error calls) initial_World)) ->
  (exists rest, key = ("Warning: " ++ rest)%string)
  /\ (forall prefixes w,
         In "Warning: "%string prefixes ->
         Common.isWarningIgnored key
           (with_ignoredYellowBox (ArrayOf prefixes) w) = true).
Proof.
  intros Hin.
  assert (Hmarked : exists rest, key = ("Warning: " ++ rest)%string).
  { apply (error_calls_marked env calls initial_World) with (c := c).
    - intros k c' [].
    - exact Hin. }
  split; [exact Hmarked|].
  intros prefixes w Hp. unfold Common.isWarningIgnored, Array_some. simpl.
  apply existsb_exists. exists "Warning: "%string.
  split; [exact Hp|]. apply String_startsWith_prefix. exact Hmarked.
Qed.

Lemma X3_witness :
  In ("Warning: 2 keys"%string, 1%Z)
    (_warningMap
       (run (H := Example.host) Example.development
          (map (Call_console_error (H := Example.host))
             [[VString "plain error"];
              [VString "Warning: %s keys"; VNumber 2%Z]])
          initial_World))
  /\ exists rest, "Warning: 2 keys"%string = ("Warning: " ++ rest)%string.
Proof.
  assert (Hin : In ("Warning: 2 keys"%string, 1%Z)
                  (_warningMap
                     (run (H := Example.host) Example.development
                        (map (Call_console_error (H := Example.host))
                           [[VString "plain error"];
                            [VString "Warning: %s keys"; VNumber 2%Z]])
                        initial_World))).
  { left. reflexivity. }
  split; [exact Hin|].
  apply (X3_error_keys_keep_marker (H := Example.host) Example.development
           [[VString "plain error"];
            [VString "Warning: %s keys"; VNumber 2%Z]]
           "Warning: 2 keys" 1%Z Hin).
Defined.

(** X4. The edges of the ignore list: when [console.ignoredYellowBox] is
    not an array, or is empty, no key is ignored; an empty string in the list
    ignores every key; and a key that is ignored stays ignored when it is
    extended and when the list grows at either end. *)
Theorem X4_ignore_list_edges `{H : Host} (key : string) (w : World) :
  Common.isWarningIgnored key (with_ignoredYellowBox NotAnArray w) = false
  /\ Common.isWarningIgnored key (with_ignoredYellowBox (ArrayOf []) w)
     = false
  /\ (forall prefixes,
         In ""%string prefixes ->
         Common.isWarningIgnored key
           (with_ignoredYellowBox (ArrayOf prefixes) w) = true)
  /\ (forall prefixes before after suffix,
         Common.isWarningIgnored key
           (with_ignoredYellowBox (ArrayOf prefixes) w) = true ->
         Common.isWarningIgnored (key ++ suffix)
           (with_ignoredYellowBox (ArrayOf (before ++ prefixes ++ after)) w)
         = true).
Proof.
  split; [reflexivity|]. split; [reflexivity|]. split.
  - intros prefixes Hin. unfold Common.isWarningIgnored, Array_some. simpl.
    apply existsb_exists. exists ""%string. split; [exact Hin | reflexivity].
  - intros prefixes before after suffix.
    unfold Common.isWarningIgnored, Array_some. simpl.
    rewrite !existsb_exists. intros [p [Hp Hstarts]].
    exists p. split.
    + apply in_or_app. right. apply in_or_app. left. exact Hp.
    + apply String_startsWith_prefix in Hstarts.
      destruct Hstarts as [rest ->]. apply String_startsWith_prefix.
      exists (rest ++ suffix)%string. apply string_append_assoc.
Qed.

Lemma X4_witness :
  Common.isWarningIgnored (H := Example.host) "[HMR] connected"
    (with_ignoredYellowBox (ArrayOf ["[HMR]"%string]) initial_World) = true
  /\ Common.isWarningIgnored (H := Example.host) ("[HMR] connected" ++ "!")
       (with_ignoredYellowBox
          (ArrayOf (["Warning: "%string] ++ ["[HMR]"%string] ++ []))
          initial_World) = true.
Proof.
  assert (Hi : Common.isWarningIgnored (H := Example.host) "[HMR] connected"
                 (with_ignoredYellowBox (ArrayOf ["[HMR]"%string])
                    initial_World) = true) by reflexivity.
  split; [exact Hi|].
  apply (X4_ignore_list_edges (H := Example.host) "[HMR] connected"
           initial_World).
  exact Hi.
Defined.

Section ArgumentProofs.
Context `{H : Host}.

Lemma Array_get_padded (args : list jsvalue) (k i : nat) :
  Array_get (args ++ repeat VUndefined k) i = Array_get args i.
Proof.
  unfold Array_get.
  destruct (Nat.lt_ge_cases i (List.length args)) as [Hlt | Hge].
  - apply app_nth1. exact Hlt.
  - rewrite app_nth2 by exact Hge.
    rewrite (nth_overflow args) by exact Hge.
    generalize (i - List.length args). clear.
    induction k as [|k IH]; intros [|n]; simpl; auto.
Qed.

Lemma replace_ext (format : string) (args1 args2 : list jsvalue) :
  (forall i, Array_get args1 i = Array_get args2 i) ->
  forall i : nat,
    String_replace_pct_s format
      (fun _match index => (Array_get args1 index, S index)) i =
    String_replace_pct_s format
      (fun _match index => (Array_get args2 index, S index)) i.
Proof.
  intros Hext.
  induction format as [|rest IH|c rest Hmiss IH] using scan_ind; intros i.
  - reflexivity.
  - rewrite !String_replace_pct_s_cons. cbn [after_placeholder].
    rewrite Hext, IH. reflexivity.
  - rewrite !String_replace_pct_s_cons, Hmiss, IH. reflexivity.
Qed.

Lemma warning_within_placeholders (format : string) (args : list jsvalue) :
  List.length args <= List.length (String_match_pct_s format) ->
  Common.warning (VString format) args = Common.sprintf format args.
Proof.
  intros Hle. unfold Common.warning. cbn [String_ ToString bind].
  cbv zeta. unfold Array_slice_to, Array_slice_from.
  rewrite firstn_all2 by exact Hle. rewrite skipn_all2 by exact Hle.
  destruct (Common.sprintf format args) as [t|e]; reflexivity.
Qed.

Lemma ToString_primitive (v : jsvalue) :
  primitive v = true -> is_normal (ToString v).
Proof.
  destruct v as [| |[]|n|s|d|o]; simpl; intros Hp;
    try discriminate Hp; eexists; reflexivity.
Qed.

End ArgumentProofs.

(** X5. With no more arguments than placeholders the serializer is not
    called and the key is the formatted string alone; a placeholder that
    finds no argument reads [undefined], so the key is the one that passing
    [undefined] for each missing argument would give. *)
Theorem X5_missing_arguments_read_undefined `{H : Host} (format : string)
    (args : list jsvalue) (k : nat) :
  List.length args + k <= List.length (String_match_pct_s format) ->
  Common.warning (VString format) args = Common.sprintf format args
  /\ Common.warning (VString format) (args ++ repeat VUndefined k)
     = Common.warning (VString format) args.
Proof.
  intros Hle. split.
  - apply warning_within_placeholders. lia.
  - rewrite !warning_within_placeholders.
    + unfold Common.sprintf. apply replace_ext.
      intros i. apply Array_get_padded.
    + lia.
    + rewrite length_app, repeat_length. exact Hle.
Qed.

Lemma X5_witness :
  List.length [VString (number := Z) (object := Example.Behaviour) "a"] + 1
  <= List.length (String_match_pct_s "%s and %s")
  /\ Common.warning (H := Example.host) (VString "%s and %s") [VString "a"]
     = Common.sprintf (H := Example.host) "%s and %s" [VString "a"].
Proof.
  split; [simpl; lia|].
  apply (X5_missing_arguments_read_undefined (H := Example.host)
           "%s and %s" [VString "a"] 1).
  simpl. lia.
Defined.

(** X6. With a string for format and arguments that are neither symbols
    nor objects, the coercions cannot fail: the key is built exactly when the
    serializer accepts each argument left over after the placeholders. *)
Theorem X6_primitive_arguments `{H : Host} (format : string)
    (args : list jsvalue) :
  (forall arg, In arg args -> primitive arg = true) ->
  (is_normal (Common.warning (VString format) args) <->
   forall arg,
     In arg (Array_slice_from args
               (List.length (String_match_pct_s format))) ->
     is_normal (stringifySafe arg)).
Proof.
  intros Hprim. rewrite warning_is_normal. split.
  - intros [f [Hf [_ Htrail]]]. injection Hf as <-. exact Htrail.
  - intros Htrail. exists format. split; [reflexivity|].
    split; [|exact Htrail].
    intros i _. apply ToString_primitive. unfold Array_get.
    destruct (Nat.lt_ge_cases i (List.length args)) as [Hlt | Hge].
    + apply Hprim. apply nth_In. exact Hlt.
    + rewrite nth_overflow by exact Hge. reflexivity.
Qed.

Lemma X6_witness :
  (forall arg,
      In arg [VNumber 3%Z; VNull] -> primitive (H := Example.host) arg = true)
  /\ is_normal (Common.warning (H := Example.host) (VString "%s left")
                  [VNumber 3%Z; VNull]).
Proof.
  assert (Hp : forall arg,
             In arg [VNumber 3%Z; VNull] ->
             primitive (H := Example.host) arg = true).
  { intros arg [<- | [<- | []]]; reflexivity. }
  split; [exact Hp|].
  apply (X6_primitive_arguments (H := Example.host) "%s left"
           [VNumber 3%Z; VNull] Hp).
  intros arg [<- | []]. eexists. reflexivity.
Defined.

(** ** The map over a run *)

Lemma Map_get_set_other (key k : string) (v : Z) (m : WarningMap) :
  k <> key -> Map_get k (Map_set key v m) = Map_get k m.
Proof.
  intros Hne. induction m as [|[k' v'] m IH]; simpl.
  - apply String.eqb_neq in Hne. rewrite String.eqb_sym, Hne. reflexivity.
  - destruct (String.eqb k' key) eqn:Hk; simpl.
    + apply String.eqb_eq in Hk. subst k'.
      assert (Hkk : String.eqb key k = false)
        by (apply String.eqb_neq; congruence).
      rewrite Hkk. reflexivity.
    + destruct (String.eqb k' k); [reflexivity | exact IH].
Qed.

Lemma Map_get_set_same (key : string) (v : Z) (m : WarningMap) :
  Map_get key (Map_set key v m) = Some v.
Proof.
  induction m as [|[k' v'] m IH]; simpl.
  - rewrite String.eqb_refl. reflexivity.
  - destruct (String.eqb k' key) eqn:Hk; simpl; rewrite Hk;
      [reflexivity | exact IH].
Qed.

Lemma count_of_get (key : string) (m : WarningMap) (c : Z) :
  Map_get key m = Some c -> Common.count_of key m = c.
Proof.
  intros Hget. unfold Common.count_of.
  rewrite (proj2 (Map_has_get key m) (ex_intro _ c Hget)), Hget.
  reflexivity.
Qed.

Lemma total_app (m1 m2 : WarningMap) :
  total (m1 ++ m2) = (total m1 + total m2)%Z.
Proof.
  unfold total. induction m1 as [|[k v] m1 IH]; simpl; [reflexivity|].
  rewrite IH. lia.
Qed.

Lemma total_set (key : string) (m : WarningMap) :
  total (Map_set key (Common.count_of key m + 1) m) = (total m + 1)%Z.
Proof.
  destruct (Map_get key m) as [c|] eqn:Hget.
  - destruct (Map_get_split key c m Hget) as [before [after [-> Hb]]].
    rewrite (count_of_at key c before after Hb),
      (Map_set_at key c _ before after Hb), !total_app.
    unfold total. simpl. lia.
  - apply Map_has_false_get in Hget.
    rewrite (count_of_absent key m Hget), (Map_set_absent key _ m Hget),
      total_app.
    unfold total. simpl. lia.
Qed.

Section GrowthProofs.
Context `{H : Host}.

Lemma record_grows (format : jsvalue) (args : list jsvalue) (w : World) :
  let m := _warningMap w in
  let m' := _warningMap (fst (Common.updateWarningMap format args w)) in
  (exists new, Map_keys m' = Map_keys m ++ new)
  /\ (forall k c, Map_get k m = Some c ->
                  exists c', Map_get k m' = Some c' /\ (c <= c')%Z)
  /\ total m' = (total m + if builds_key (format, args) then 1 else 0)%Z.
Proof.
  intros m m'. subst m m'. rewrite updateWarningMap_warningMap.
  unfold builds_key. cbn [fst snd].
  destruct (Common.warning format args) as [key|e].
  - split; [|split].
    + rewrite Map_keys_set. destruct (Map_has key (_warningMap w)).
      * exists []. rewrite app_nil_r. reflexivity.
      * exists [key]. reflexivity.
    + intros k c Hget. destruct (String.eqb k key) eqn:Hk.
      * apply String.eqb_eq in Hk. subst k.
        rewrite Map_get_set_same, (count_of_get key _ c Hget).
        exists (c + 1)%Z. split; [reflexivity | lia].
      * apply String.eqb_neq in Hk.
        rewrite (Map_get_set_other key k _ _ Hk).
        exists c. split; [exact Hget | lia].
    + apply total_set.
  - split; [|split].
    + exists []. rewrite app_nil_r. reflexivity.
    + intros k c Hget. exists c. split; [exact Hget | lia].
    + lia.
Qed.

End GrowthProofs.

(** X7. Records never take a key out and never move one: after any block
    of [record] calls the keys that were there come first, in their old
    order, and no count has gone down. *)
Theorem X7_records_only_add `{H : Host}
    (calls : list (jsvalue * list jsvalue)) (w : World) :
  (exists new,
      Map_keys (_warningMap (record_block calls w)) =
      Map_keys (_warningMap w) ++ new)
  /\ (forall k c,
         Map_get k (_warningMap w) = Some c ->
         exists c',
           Map_get k (_warningMap (record_block calls w)) = Some c'
           /\ (c <= c')%Z).
Proof.
  revert w. induction calls as [|call calls IH]; intros w.
  - simpl. split.
    + exists []. rewrite app_nil_r. reflexivity.
    + intros k c Hget. exists c. split; [exact Hget | lia].
  - cbn [record_block fold_left].
    change (fold_left _ calls ?w0) with (record_block calls w0).
    destruct (record_grows (fst call) (snd call) w) as [[new1 Hk1] [Hc1 _]].
    destruct (IH (fst (Common.updateWarningMap (fst call) (snd call) w)))
      as [[new2 Hk2] Hc2].
    split.
    + exists (new1 ++ new2). rewrite Hk2, Hk1, app_assoc. reflexivity.
    + intros k c Hget. destruct (Hc1 k c Hget) as [c1 [Hget1 Hle1]].
      destruct (Hc2 k c1 Hget1) as [c2 [Hget2 Hle2]].
      exists c2. split; [exact Hget2 | lia].
Qed.

(** X8. No call is lost and none is counted twice: over a block of
    [record] calls the sum of all counts grows by the number of calls whose
    key could be built. *)
Theorem X8_counts_add_up `{H : Host}
    (calls : list (jsvalue * list jsvalue)) (w : World) :
  total (_warningMap (record_block calls w)) =
  (total (_warningMap w)
   + Z.of_nat (List.length (filter builds_key calls)))%Z.
Proof.
  revert w. induction calls as [|call calls IH]; intros w.
  - simpl. lia.
  - cbn [record_block fold_left filter].
    change (fold_left _ calls ?w0) with (record_block calls w0).
    rewrite IH.
    destruct (record_grows (fst call) (snd call) w) as [_ [_ Ht]].
    rewrite Ht. destruct call as [format args]. cbn [fst snd].
    destruct (builds_key (format, args)); cbn [List.length]; lia.
Qed.

(** X9. Dismissing resets the count: in any reachable world, dismissing a
    key that is not empty and recording it again leaves it last in the map,
    with count 1, the other entries as they were. *)
Theorem X9_dismiss_then_record `{H : Host} (env : Environment)
    (ops : list Operation) (format : jsvalue) (args : list jsvalue)
    (key : string) (this : YellowBox) :
  key <> ""%string ->
  Common.warning format args = Normal key ->
  let w := run env ops initial_World in
  let dismissed := snd (Index.dismissWarning (Some key) this w) in
  _warningMap (fst (Common.updateWarningMap format args dismissed)) =
  Map_delete key (_warningMap w) ++ [(key, 1%Z)].
Proof.
  intros Hne Hkey w dismissed.
  assert (Hw : well_counted (_warningMap w)).
  { apply run_well_counted. apply well_counted_clear. }
  assert (Hd : _warningMap dismissed = Map_delete key (_warningMap w)).
  { unfold dismissed. rewrite dismissWarning_warningMap. simpl.
    apply String.eqb_neq in Hne. rewrite Hne. reflexivity. }
  assert (Habsent : Map_has key (_warningMap dismissed) = false).
  { rewrite Hd. apply Map_keys_delete_NoDup. exact (proj1 Hw). }
  rewrite updateWarningMap_warningMap, Hkey.
  rewrite (count_of_absent key _ Habsent), (Map_set_absent key _ _ Habsent).
  rewrite Hd. reflexivity.
Qed.

Lemma X9_witness :
  "a"%string <> ""%string
  /\ _warningMap
       (fst (Common.updateWarningMap (H := Example.host) (VString "a") []
               (snd (Index.dismissWarning (Some "a"%string) Example.box
                       (run Example.development
                          [Call_console_warn [VString "a"];
                           Call_console_warn [VString "a"];
                           Call_console_warn [VString "b"]]
                          initial_World)))))
     = [("b"%string, 1%Z); ("a"%string, 1%Z)].
Proof.
  split; [discriminate|].
  apply (X9_dismiss_then_record (H := Example.host) Example.development
           [Call_console_warn [VString "a"];
            Call_console_warn [VString "a"];
            Call_console_warn [VString "b"]]
           (VString "a") [] "a" Example.box).
  - discriminate.
  - reflexivity.
Defined.

(** ** Production, turns and the order of notifications *)

Section TurnProofs.
Context `{H : Host}.

Lemma with_console_output_same (w : World) :
  with_console_output (console_output w) w = w.
Proof. destruct w. reflexivity. Qed.

Lemma production_run (env : Environment) (ops : list Operation) :
  production env = true ->
  only_console ops ->
  forall w : World,
    run env ops w =
    with_console_output (console_output w ++ console_lines ops) w.
Proof.
  intros Hprod. induction ops as [|op ops IH]; intros Honly w.
  - simpl. rewrite app_nil_r. symmetry. apply with_console_output_same.
  - assert (Hrest : only_console ops)
      by (intros op' Hin; apply Honly; right; exact Hin).
    specialize (Honly op (or_introl eq_refl)).
    cbn [run fold_left]. change (fold_left (perform env) ops ?w0)
      with (run env ops w0).
    rewrite (IH Hrest).
    destruct op as [arguments|arguments|format args|warning_ this|this|this|i|];
      simpl in Honly; try contradiction;
      cbn [perform console_lines console_line].
    + unfold Common.console_error. rewrite Hprod. cbn [fst].
      unfold original, with_console_output. cbn.
      rewrite <- app_assoc. reflexivity.
    + unfold Common.console_warn. rewrite Hprod. cbn [fst].
      unfold original, with_console_output. cbn.
      rewrite <- app_assoc. reflexivity.
Qed.

Lemma run_immediates_idle (w : World) :
  immediates w = [] -> run_immediates w = w.
Proof.
  intros Hidle. unfold run_immediates. rewrite Hidle.
  destruct w. simpl in *. subst. reflexivity.
Qed.

Lemma run_immediates_spec (w : World) :
  _warningEmitter (run_immediates w) =
    map (settle (immediates w)) (_warningEmitter w)
  /\ notifications (run_immediates w) =
     notifications w ++ map (notify (_warningMap w)) (immediates w)
  /\ immediates (run_immediates w) = [].
Proof.
  unfold run_immediates.
  destruct (callbacks_spec (immediates w)
              {| _warningMap := _warningMap w;
                 _warningEmitter := _warningEmitter w;
                 nextListener := nextListener w;
                 immediates := [];
                 nextImmediate := nextImmediate w;
                 console_output := console_output w;
                 notifications := notifications w;
                 ignoredYellowBox := ignoredYellowBox w |})
    as [Hls [Hns [Hq _]]].
  split; [exact Hls|]. split; [exact Hns | exact Hq].
Qed.

Lemma idle_unscheduled (w : World) :
  sound_schedule w -> immediates w = [] ->
  forall x, In x (_warningEmitter w) -> scheduled x = None.
Proof.
  intros [_ [_ [Hpend _]]] Hidle x Hx.
  specialize (Hpend x Hx). rewrite Hidle in Hpend.
  destruct (scheduled x); [discriminate Hpend | reflexivity].
Qed.

(** An [emit] to listeners that all wait for one: each gets its callback
    queued, in the order of the listeners. *)
Lemma emit_to_fresh (ls : list Listener) :
  (forall x, In x ls -> scheduled x = None) ->
  forall (queue : list Task) (next : Immediate),
    map (fun t => (closure t, this_ t)) (snd (fst (emit_to ls queue next)))
    = map (fun t => (closure t, this_ t)) queue ++ subscribers ls.
Proof.
  induction ls as [|x ls IH]; intros Hnone queue next.
  - simpl. rewrite app_nil_r. reflexivity.
  - cbn [emit_to]. unfold listener_call, setImmediate.
    rewrite (Hnone x (or_introl eq_refl)).
    assert (Hrest : forall y, In y ls -> scheduled y = None)
      by (intros y Hy; apply Hnone; right; exact Hy).
    match goal with
    | |- context [emit_to ls ?q ?n] =>
        specialize (IH Hrest q n); destruct (emit_to ls q n) as [[ls' q'] n']
    end.
    simpl in *. rewrite IH, map_app, <- app_assoc. reflexivity.
Qed.

(** An [emit] to listeners that are all scheduled changes nothing. *)
Lemma emit_to_settled (ls : list Listener) :
  (forall x, In x ls -> scheduled x <> None) ->
  forall (queue : list Task) (next : Immediate),
    emit_to ls queue next = (ls, queue, next).
Proof.
  induction ls as [|x ls IH]; intros Hsome queue next; [reflexivity|].
  cbn [emit_to]. unfold listener_call.
  destruct (scheduled x) as [h|] eqn:Hx.
  - rewrite IH; [reflexivity|].
    intros y Hy. apply Hsome. right. exact Hy.
  - exfalso. apply (Hsome x (or_introl eq_refl)). exact Hx.
Qed.

(** After the first call of a block that goes through, the queue holds one
    callback for each listener, in their order, and stays so. *)
Lemma record_block_queue (calls : list (jsvalue * list jsvalue)) :
  forall w : World,
    sound_schedule w ->
    ((forall x, In x (_warningEmitter w) -> scheduled x = None)
     /\ immediates w = [] /\ existsb builds_key calls = true)
    \/ ((forall x, In x (_warningEmitter w) -> scheduled x <> None)
        /\ map (fun t => (closure t, this_ t)) (immediates w)
           = subscribers (_warningEmitter w)) ->
    map (fun t => (closure t, this_ t)) (immediates (record_block calls w))
    = subscribers (_warningEmitter w).
Proof.
  induction calls as [|call calls IH]; intros w Hw Hphase.
  - destruct Hphase as [[_ [_ Hex]] | [_ Hq]];
      [discriminate Hex | exact Hq].
  - cbn [record_block fold_left].
    change (fold_left _ calls ?w0) with (record_block calls w0).
    destruct (updateWarningMap_sound (fst call) (snd call) w Hw)
      as [Hw1 [Hsub1 _]].
    rewrite <- Hsub1. apply (IH _ Hw1). rewrite Hsub1.
    unfold Common.updateWarningMap in *.
    cbn [existsb] in Hphase. unfold builds_key in Hphase at 1.
    destruct (Common.warning (fst call) (snd call)) as [key|e]; cbn [fst].
    + right. unfold EventEmitter_emit. cbn [_warningEmitter immediates
        nextImmediate with_warningMap].
      destruct Hphase as [[Hnone [Hidle _]] | [Hsome Hq]].
      * pose proof (emit_to_fresh (_warningEmitter w) Hnone (immediates w)
                      (nextImmediate w)) as Hfresh.
        pose proof (emit_to_spec (_warningEmitter w) (immediates w)
                      (nextImmediate w)) as [_ [Hsched _]].
        destruct (emit_to _ _ _) as [[ls' q'] n']. simpl in *.
        split; [exact Hsched|]. rewrite Hfresh, Hidle. reflexivity.
      * rewrite (emit_to_settled _ Hsome). simpl.
        split; [exact Hsome | exact Hq].
    + destruct Hphase as [[Hnone [Hidle Hex]] | [Hsome Hq]].
      * left. split; [exact Hnone|]. split; [exact Hidle | exact Hex].
      * right. split; [exact Hsome | exact Hq].
Qed.

End TurnProofs.

(** X10. In production the module installs nothing: any sequence of
    [console.error] and [console.warn] calls only reaches the host's logger,
    line by line in the order of the calls; the map, the listeners, the queue
    and the notifications stay as they were. *)
Theorem X10_production_collects_nothing `{H : Host} (env : Environment)
    (ops : list Operation) (w : World) :
  production env = true ->
  only_console ops ->
  run env ops w =
  with_console_output (console_output w ++ console_lines ops) w.
Proof. intros Hprod Honly. apply production_run; assumption. Qed.

Lemma X10_witness :
  production {| NODE_ENV := Some "production"%string;
                window_defined := true |} = true
  /\ _warningMap
       (run (H := Example.host)
          {| NODE_ENV := Some "production"%string; window_defined := true |}
          [Call_console_warn [VString "a"];
           Call_console_error [VString "Warning: b"]]
          initial_World) = [].
Proof.
  split; [reflexivity|].
  rewrite (X10_production_collects_nothing (H := Example.host)
             {| NODE_ENV := Some "production"%string;
                window_defined := true |}
             [Call_console_warn [VString "a"];
              Call_console_error [VString "Warning: b"]]
             initial_World).
  - reflexivity.
  - reflexivity.
  - intros op [<- | [<- | []]]; discriminate.
Defined.

(** X11. A turn of the event loop empties the queue and resets [scheduled]
    in every listener, tells each queued callback's component the map as it
    is, leaves the map alone, and a second turn right after it does
    nothing. *)
Theorem X11_turn_drains_the_queue `{H : Host} (env : Environment)
    (ops : list Operation) :
  let w := run env ops initial_World in
  let w1 := run_immediates w in
  immediates w1 = []
  /\ (forall x, In x (_warningEmitter w1) -> scheduled x = None)
  /\ notifications w1 =
     notifications w ++ map (notify (_warningMap w)) (immediates w)
  /\ _warningMap w1 = _warningMap w
  /\ run_immediates w1 = w1.
Proof.
  intros w w1.
  assert (Hw : sound_schedule w) by (apply run_sound, initial_sound).
  destruct (run_immediates_spec w) as [_ [Hns Hq]].
  fold w1 in Hns, Hq.
  split; [exact Hq|]. split.
  - apply idle_unscheduled; [|exact Hq].
    apply run_immediates_sound. exact Hw.
  - split; [exact Hns|]. split.
    + apply run_immediates_warningMap.
    + apply run_immediates_idle. exact Hq.
Qed.

(** X12. When nothing is queued, a block of [record] calls of which one at
    least goes through is followed, on the next turn, by exactly one
    notification for each listener, in the order in which the components were
    mounted, each carrying the map as the block left it. *)
Theorem X12_notified_in_mount_order `{H : Host} (env : Environment)
    (ops : list Operation) (calls : list (jsvalue * list jsvalue)) :
  let w := run env ops initial_World in
  immediates w = [] ->
  existsb builds_key calls = true ->
  let w' := record_block calls w in
  notifications (run_immediates w') =
  notifications w ++
  map (fun l => {| to_listener := lid l;
                   to_component := owner l;
                   contents := _warningMap w' |})
      (_warningEmitter w).
Proof.
  intros w Hidle Hcalls w'.
  assert (Hw : sound_schedule w) by (apply run_sound, initial_sound).
  destruct (record_block_sound calls w Hw) as [_ [_ [Hnot _]]].
  fold w' in Hnot.
  destruct (run_immediates_spec w') as [_ [Hns _]].
  rewrite Hns, Hnot. f_equal.
  pose proof (record_block_queue calls w Hw
                (or_introl (conj (idle_unscheduled w Hw Hidle)
                                 (conj Hidle Hcalls)))) as Hq.
  fold w' in Hq. unfold subscribers in Hq.
  revert Hq. generalize (immediates w') (_warningEmitter w).
  intros queue. induction queue as [|t queue IH]; intros [|l ls] Hq;
    simpl in Hq; try discriminate Hq; [reflexivity|].
  injection Hq as Hc Ht Hq. simpl. rewrite (IH ls Hq).
  unfold notify. rewrite Hc, Ht. reflexivity.
Qed.

Lemma X12_witness :
  immediates
    (run (H := Example.host) Example.development
       [Call_componentDidMount (new_YellowBox 7);
        Call_componentDidMount (new_YellowBox 9)]
       initial_World) = []
  /\ notifications
       (run_immediates
          (record_block (H := Example.host)
             [(VString "a", []); (VString "%s", [VSymbol "x"]);
              (VString "a", [])]
             (run Example.development
                [Call_componentDidMount (new_YellowBox 7);
                 Call_componentDidMount (new_YellowBox 9)]
                initial_World)))
     = [{| to_listener := 0; to_component := 7;
           contents := [("a"%string, 2%Z)] |};
        {| to_listener := 1; to_component := 9;
           contents := [("a"%string, 2%Z)] |}].
Proof.
  split; [reflexivity|].
  apply (X12_notified_in_mount_order (H := Example.host)
           Example.development
           [Call_componentDidMount (new_YellowBox 7);
            Call_componentDidMount (new_YellowBox 9)]
           [(VString "a", []); (VString "%s", [VSymbol "x"]);
            (VString "a", [])]).
  - reflexivity.
  - reflexivity.
Defined.

(** ** What is on screen *)

Lemma Map_has_delete_other (key k : string) (m : WarningMap) :
  k <> key -> Map_has k (Map_delete key m) = Map_has k m.
Proof.
  intros Hne. induction m as [|[k' v'] m IH]; simpl; [reflexivity|].
  destruct (String.eqb k' key) eqn:Hk; simpl.
  - apply String.eqb_eq in Hk. subst k'.
    assert (Hkk : String.eqb key k = false)
      by (apply String.eqb_neq; congruence).
    rewrite Hkk. reflexivity.
  - destruct (String.eqb k' k); [reflexivity | exact IH].
Qed.

Lemma In_Map_get (key : string) (c : Z) (m : WarningMap) :
  NoDup (Map_keys m) -> In (key, c) m -> Map_get key m = Some c.
Proof.
  induction m as [|[k v] m IH]; simpl; [intros _ []|].
  intros Hnd Hin. inversion Hnd as [|k0 ks Hnotin Hnd']; subst.
  destruct Hin as [Heq | Hin].
  - injection Heq as -> ->. rewrite String.eqb_refl. reflexivity.
  - destruct (String.eqb k key) eqn:Hk.
    + apply String.eqb_eq in Hk. subst k. exfalso. apply Hnotin.
      apply in_map_iff. exists (key, c). split; [reflexivity | exact Hin].
    + apply (IH Hnd' Hin).
Qed.

Lemma NoDup_map_filter (A B : Type) (g : A -> B) (f : A -> bool)
    (l : list A) :
  NoDup (map g l) -> NoDup (map g (filter f l)).
Proof.
  induction l as [|a l IH]; simpl; [intros Hnd; exact Hnd|].
  intros Hnd. inversion Hnd as [|b bs Hnotin Hnd']; subst.
  destruct (f a); simpl; [|exact (IH Hnd')].
  constructor; [|exact (IH Hnd')].
  intros Hin. apply Hnotin. apply in_map_iff in Hin.
  destruct Hin as [x [Hx Hin]]. apply filter_In in Hin.
  apply in_map_iff. exists x. split; [exact Hx | exact (proj1 Hin)].
Qed.

Section ScreenProofs.
Context `{H : Host}.

Lemma forEach_rows (w : World) (m : WarningMap) :
  forall rows : list RowProps,
    fold_left (push_row w) m rows =
    rows ++ map row_of
              (filter (fun entry =>
                         negb (Common.isWarningIgnored (fst entry) w)) m).
Proof.
  induction m as [|entry m IH]; intros rows; simpl.
  - rewrite app_nil_r. reflexivity.
  - rewrite IH. unfold push_row.
    destruct (negb (Common.isWarningIgnored (fst entry) w)); simpl.
    + rewrite <- app_assoc. reflexivity.
    + reflexivity.
Qed.

Lemma render_Some (d : bool) (this : YellowBox) (w : World) (v : Rendered) :
  render d this w = Some v ->
  d = false /\ _warningMap w <> []
  /\ list_rows v =
     map row_of
       (filter (fun entry => negb (Common.isWarningIgnored (fst entry) w))
          (_warningMap w))
  /\ inspector v =
     match inspecting this with
     | Some key =>
         Some {| inspector_count := Map_get key (_warningMap w);
                 inspector_warning := key |}
     | None => None
     end.
Proof.
  unfold render. destruct d; [discriminate|]. cbn [orb].
  destruct (Nat.eqb (Map_size (_warningMap w)) 0) eqn:Hsize; [discriminate|].
  intros Hv. injection Hv as <-.
  split; [reflexivity|]. split.
  - intros Hm. rewrite Hm in Hsize. discriminate Hsize.
  - split; [|reflexivity].
    cbn [list_rows]. rewrite forEach_rows. reflexivity.
Qed.

Lemma dismiss_keeps_inspecting_present (warning_ : option string)
    (this : YellowBox) (w : World) :
  inspecting_present (this, w) ->
  inspecting_present (Index.dismissWarning warning_ this w).
Proof.
  unfold inspecting_present. cbn [fst snd]. intros Hinv key.
  unfold Index.dismissWarning. cbn [fst snd inspecting _warningMap
    with_warningMap].
  destruct warning_ as [k|]; [|discriminate].
  cbn [truthy]. destruct (String.eqb k "") eqn:Hempty; cbn [negb andb];
    [discriminate|].
  destruct (inspecting this) as [k0|] eqn:Hins; cbn [strict_differs];
    [|discriminate].
  destruct (String.eqb k0 k) eqn:Hk; cbn [negb]; [discriminate|].
  intros Heq. injection Heq as ->.
  apply String.eqb_neq in Hk.
  rewrite (Map_has_delete_other k key _ Hk). apply Hinv. reflexivity.
Qed.

Lemma react_keeps (state : YellowBox * World) (g : bool * Gesture) :
  inspecting_present state /\ well_counted (_warningMap (snd state)) ->
  inspecting_present (react state g)
  /\ well_counted (_warningMap (snd (react state g))).
Proof.
  destruct state as [this w]. destruct g as [d g].
  intros [Hinv Hw]. unfold react. cbn [fst snd].
  destruct g as [format args| |warning_| |warning_]; cbn [fst snd].
  - split; [|apply updateWarningMap_well_counted; exact Hw].
    unfold inspecting_present in *. cbn [fst snd] in *.
    intros key Hkey. specialize (Hinv key Hkey).
    apply Map_has_get in Hinv. destruct Hinv as [c Hc].
    destruct (record_grows format args w) as [_ [Hgrow _]].
    destruct (Hgrow key c Hc) as [c' [Hc' _]].
    apply Map_has_get. exists c'. exact Hc'.
  - split; [|rewrite run_immediates_warningMap; exact Hw].
    unfold inspecting_present in *. cbn [fst snd] in *.
    rewrite run_immediates_warningMap. exact Hinv.
  - destruct (on_screen warning_ (render d this w)) eqn:Hon;
      [|split; assumption].
    split; [|exact Hw].
    unfold inspecting_present. cbn [fst snd setState_inspecting inspecting].
    intros key Heq. injection Heq as <-.
    unfold on_screen in Hon.
    destruct (render d this w) as [v|] eqn:Hv; [|discriminate].
    apply render_Some in Hv. destruct Hv as [_ [_ [Hrows _]]].
    apply existsb_exists in Hon. destruct Hon as [row [Hrow Hk]].
    apply String.eqb_eq in Hk. rewrite Hrows in Hrow.
    apply in_map_iff in Hrow. destruct Hrow as [[k c] [<- Hin]].
    apply filter_In in Hin. cbn [row_of row_warning fst] in Hk. subst k.
    apply Map_has_In. apply in_map_iff.
    exists (warning_, c). split; [reflexivity | exact (proj1 Hin)].
  - split; [|exact Hw]. unfold inspecting_present.
    cbn [fst snd setState_inspecting inspecting]. discriminate.
  - split; [apply dismiss_keeps_inspecting_present; exact Hinv|].
    rewrite dismissWarning_warningMap.
    destruct (truthy warning_); [|apply well_counted_clear].
    destruct warning_ as [k|]; [|apply well_counted_clear].
    apply well_counted_delete. exact Hw.
Qed.

Lemma gestures_keep (gestures : list (bool * Gesture)) :
  forall state : YellowBox * World,
    inspecting_present state /\ well_counted (_warningMap (snd state)) ->
    inspecting_present (fold_left react gestures state)
    /\ well_counted (_warningMap (snd (fold_left react gestures state))).
Proof.
  induction gestures as [|g gestures IH]; intros state Hstate;
    [exact Hstate|].
  simpl. apply IH. apply react_keeps. exact Hstate.
Qed.

End ScreenProofs.

(** X13. [render] returns [null] exactly when the box is disabled or the
    map is empty.  Otherwise the rows are the entries of the map that are not
    ignored, in the order of the map, each with its count; when every entry
    is ignored the box is still rendered, with no row in it. *)
Theorem X13_rows_are_the_unignored_entries `{H : Host} (d : bool)
    (this : YellowBox) (w : World) :
  (render d this w = None <-> d = true \/ _warningMap w = [])
  /\ (forall v,
         render d this w = Some v ->
         list_rows v =
         map row_of
           (filter
              (fun entry => negb (Common.isWarningIgnored (fst entry) w))
              (_warningMap w))
         /\ ((forall entry, In entry (_warningMap w) ->
                 Common.isWarningIgnored (fst entry) w = true) ->
             list_rows v = [])).
Proof.
  split.
  - unfold render, Map_size. destruct d.
    + split; [intros _; left; reflexivity | reflexivity].
    + destruct (_warningMap w) as [|entry m]; cbn [orb List.length Nat.eqb].
      * split; [intros _; right; reflexivity | reflexivity].
      * split; [discriminate | intros [Hd | Hm]; discriminate].
  - intros v Hv. apply render_Some in Hv.
    destruct Hv as [_ [_ [Hrows _]]]. split; [exact Hrows|].
    intros Hall. rewrite Hrows.
    assert (Hnil : forall m : WarningMap,
               (forall entry, In entry m ->
                  Common.isWarningIgnored (fst entry) w = true) ->
               filter (fun entry =>
                         negb (Common.isWarningIgnored (fst entry) w)) m
               = []).
    { induction m as [|entry m IH]; intros Hm; [reflexivity|].
      simpl. rewrite (Hm entry (or_introl eq_refl)). simpl.
      apply IH. intros e He. apply Hm. right. exact He. }
    rewrite (Hnil _ Hall). reflexivity.
Qed.

Lemma X13_witness :
  render (H := Example.host) false Example.box
    (with_ignoredYellowBox (ArrayOf ["b"%string])
       (run Example.development
          [Call_console_warn [VString "a"];
           Call_console_warn [VString "b"];
           Call_console_warn [VString "c"];
           Call_console_warn [VString "a"]]
          initial_World))
  = Some {| list_rows := [{| row_count := 2; row_warning := "a" |};
                          {| row_count := 1; row_warning := "c" |}];
            inspector := None |}
  /\ list_rows {| list_rows := [{| row_count := 2; row_warning := "a" |};
                               {| row_count := 1; row_warning := "c" |}];
                 inspector := None |}
     = map row_of
         (filter
            (fun entry =>
               negb (Common.isWarningIgnored (H := Example.host) (fst entry)
                       (with_ignoredYellowBox (ArrayOf ["b"%string])
                          initial_World)))
            [("a"%string, 2%Z); ("b"%string, 1%Z); ("c"%string, 1%Z)]).
Proof.
  assert (Hr : render (H := Example.host) false Example.box
                 (with_ignoredYellowBox (ArrayOf ["b"%string])
                    (run Example.development
                       [Call_console_warn [VString "a"];
                        Call_console_warn [VString "b"];
                        Call_console_warn [VString "c"];
                        Call_console_warn [VString "a"]]
                       initial_World))
               = Some {| list_rows :=
                           [{| row_count := 2; row_warning := "a" |};
                            {| row_count := 1; row_warning := "c" |}];
                         inspector := None |}) by reflexivity.
  split; [exact Hr|].
  exact (proj1 (proj2 (X13_rows_are_the_unignored_entries
                         (H := Example.host) false Example.box _) _ Hr)).
Defined.

(** X14. In every reachable world the rows on screen have pairwise
    different warnings (their React keys), every count shown is at least 1,
    and a warning is on screen with a count exactly when the map files it
    under that count and it is not ignored. *)
Theorem X14_rows_of_a_reachable_world `{H : Host} (env : Environment)
    (ops : list Operation) (i : IgnoredYellowBox) (this : YellowBox)
    (v : Rendered) :
  let w := with_ignoredYellowBox i (run env ops initial_World) in
  render false this w = Some v ->
  NoDup (map row_warning (list_rows v))
  /\ (forall row, In row (list_rows v) -> (1 <= row_count row)%Z)
  /\ (forall key c,
         In {| row_count := c; row_warning := key |} (list_rows v) <->
         Map_get key (_warningMap w) = Some c
         /\ Common.isWarningIgnored key w = false).
Proof.
  intros w Hv. apply render_Some in Hv. destruct Hv as [_ [_ [Hrows _]]].
  assert (Hw : well_counted (_warningMap w)).
  { unfold w. cbn [_warningMap with_ignoredYellowBox].
    apply run_well_counted. apply well_counted_clear. }
  destruct Hw as [Hnd Hpos]. rewrite Hrows. split; [|split].
  - rewrite map_map. cbn [row_of row_warning].
    apply (NoDup_map_filter _ _ fst). exact Hnd.
  - intros row Hrow. apply in_map_iff in Hrow.
    destruct Hrow as [[k c] [<- Hin]]. apply filter_In in Hin.
    cbn [row_of row_count snd]. exact (Hpos k c (proj1 Hin)).
  - intros key c. rewrite in_map_iff. split.
    + intros [[k c'] [Heq Hin]]. injection Heq as -> ->.
      apply filter_In in Hin. destruct Hin as [Hin Hshown].
      cbn [fst] in Hshown. apply negb_true_iff in Hshown.
      split; [apply In_Map_get; assumption | exact Hshown].
    + intros [Hget Hshown]. exists (key, c). split; [reflexivity|].
      apply filter_In. split; [apply Map_get_In; exact Hget|].
      cbn [fst]. rewrite Hshown. reflexivity.
Qed.

Lemma X14_witness :
  render (H := Example.host) false Example.box
    (with_ignoredYellowBox (ArrayOf ["b"%string])
       (run Example.development
          [Call_console_warn [VString "a"];
           Call_console_warn [VString "b"]]
          initial_World))
  = Some {| list_rows := [{| row_count := 1; row_warning := "a" |}];
            inspector := None |}
  /\ NoDup (map row_warning [{| row_count := 1; row_warning := "a" |}]).
Proof.
  assert (Hr : render (H := Example.host) false Example.box
                 (with_ignoredYellowBox (ArrayOf ["b"%string])
                    (run Example.development
                       [Call_console_warn [VString "a"];
                        Call_console_warn [VString "b"]]
                       initial_World))
               = Some {| list_rows :=
                           [{| row_count := 1; row_warning := "a" |}];
                         inspector := None |}) by reflexivity.
  split; [exact Hr|].
  exact (proj1 (X14_rows_of_a_reachable_world (H := Example.host)
                  Example.development
                  [Call_console_warn [VString "a"];
                   Call_console_warn [VString "b"]]
                  (ArrayOf ["b"%string]) Example.box _ Hr)).
Defined.

(** X15. One box, left to itself: whatever is recorded, clicked, closed
    or dismissed, the inspector is never open on a warning that has left the
    map.  So whenever [render] shows the inspector, the count it is given is
    the count of the map, a number that is at least 1. *)
Theorem X15_inspector_shows_a_count `{H : Host} (env : Environment)
    (ops : list Operation) (id : nat) (gestures : list (bool * Gesture))
    (d : bool) (v : Rendered) (i : InspectorProps) :
  let state :=
    fold_left react gestures
      (new_YellowBox id, run env ops initial_World) in
  render d (fst state) (snd state) = Some v ->
  inspector v = Some i ->
  exists c,
    inspector_count i = Some c
    /\ (1 <= c)%Z
    /\ In (inspector_warning i, c) (_warningMap (snd state)).
Proof.
  intros state Hv Hi.
  assert (Hstate : inspecting_present state
                   /\ well_counted (_warningMap (snd state))).
  { apply gestures_keep. split.
    - intros key Hkey. discriminate Hkey.
    - apply run_well_counted. apply well_counted_clear. }
  destruct Hstate as [Hinv [_ Hpos]].
  apply render_Some in Hv. destruct Hv as [_ [_ [_ Hins]]].
  rewrite Hins in Hi.
  destruct (inspecting (fst state)) as [key|] eqn:Hkey; [|discriminate].
  injection Hi as <-. cbn [inspector_count inspector_warning].
  specialize (Hinv key Hkey). apply Map_has_get in Hinv.
  destruct Hinv as [c Hc]. exists c.
  apply Map_get_In in Hc as Hin.
  split; [exact Hc|]. split; [exact (Hpos key c Hin) | exact Hin].
Qed.

Lemma X15_witness :
  exists c,
    inspector_count {| inspector_count := Some 2%Z;
                       inspector_warning := "a" |} = Some c
    /\ (1 <= c)%Z
    /\ In ("a"%string, c)
         (_warningMap
            (snd (fold_left (react (H := Example.host))
                    [(false, Warned (VString "a") []);
                     (false, Row_clicked "a");
                     (false, Dismissed (Some "b"%string))]
                    (new_YellowBox 0,
                     run Example.development
                       [Call_console_warn [VString "a"];
                        Call_console_warn [VString "b"]]
                       initial_World)))).
Proof.
  apply (X15_inspector_shows_a_count (H := Example.host)
           Example.development
           [Call_console_warn [VString "a"];
            Call_console_warn [VString "b"]]
           0
           [(false, Warned (VString "a") []);
            (false, Row_clicked "a");
            (false, Dismissed (Some "b"%string))]
           false
           {| list_rows := [{| row_count := 2; row_warning := "a" |}];
              inspector := Some {| inspector_count := Some 2%Z;
                                   inspector_warning := "a" |} |}
           {| inspector_count := Some 2%Z; inspector_warning := "a" |}).
  - reflexivity.
  - reflexivity.
Defined.

(** X16. Two boxes share the map and nothing else: when one box dismisses
    the warning that the other one inspects, no notification is queued or
    sent, the other keeps its inspector open, and [render] hands that
    inspector an undefined count. *)
Theorem X16_other_box_keeps_its_inspector `{H : Host} (env : Environment)
    (ops : list Operation) (key : string) (box other : YellowBox)
    (d : bool) (v : Rendered) :
  key <> ""%string ->
  inspecting box = Some key ->
  let w := run env ops initial_World in
  let w' := snd (Index.dismissWarning (Some key) other w) in
  render d box w' = Some v ->
  inspector v =
  Some {| inspector_count := None; inspector_warning := key |}
  /\ immediates w' = immediates w
  /\ notifications w' = notifications w.
Proof.
  intros Hne Hins w w' Hv.
  split; [|split; reflexivity].
  apply render_Some in Hv. destruct Hv as [_ [_ [_ Hi]]].
  rewrite Hi, Hins. f_equal. f_equal.
  apply Map_has_false_get.
  assert (Hw : well_counted (_warningMap w)).
  { apply run_well_counted. apply well_counted_clear. }
  unfold w'. rewrite dismissWarning_warningMap. simpl.
  apply String.eqb_neq in Hne. rewrite Hne. simpl.
  apply Map_keys_delete_NoDup. exact (proj1 Hw).
Qed.

Lemma X16_witness :
  "a"%string <> ""%string
  /\ inspector
       {| list_rows := [{| row_count := 1; row_warning := "b" |}];
          inspector := Some {| inspector_count := None;
                               inspector_warning := "a" |} |}
     = Some {| inspector_count := None; inspector_warning := "a" |}.
Proof.
  split; [discriminate|].
  apply (X16_other_box_keeps_its_inspector (H := Example.host)
           Example.development
           [Call_console_warn [VString "a"];
            Call_console_warn [VString "b"]]
           "a"
           (setState_inspecting (Some "a"%string) (new_YellowBox 0))
           (new_YellowBox 1) false
           {| list_rows := [{| row_count := 1; row_warning := "b" |}];
              inspector := Some {| inspector_count := None;
                                   inspector_warning := "a" |} |}).
  - discriminate.
  - reflexivity.
  - reflexivity.
Defined.
